(** * Espresso: the site model and its derivation passes

    A shallow embedding of the [build] package of Espresso, a static site
    generator written in Go: the route tree of [build/site.go]
    ([registerPage], [WalkRoutes]) and the builder passes ([buildPage],
    [buildListPages], [addArticlePagesToIndexPages], [buildRelated]).

    Conventions of the embedding.
    - A Go [string] is a [string] (a sequence of bytes).
    - A Go [int] that holds a length or an index is a [Z] or a [nat]; the
      one counter that is incremented without a bound of its own,
      [currentDepth], wraps around at 64 bits.
    - A run-time panic (nil dereference, slice bound out of range) is the
      result [Panic]; a call that returns is [Ok], whatever it returns.
    - A Go map is an association list with unique keys; the order of the
      list is the order in which [range] happens to deliver the entries.
    - [*model.Article] is an address into a store of articles, because
      articles are mutated through their pointers. [*model.ArticlePage]
      is the page value itself where the pointer cannot be nil, and an
      [option] where it can: no code mutates a page after its creation. *)

From Stdlib Require Import ZArith Sorted Ascii String.
From stdpp Require Import list strings sorting.

Set Implicit Arguments.
Open Scope string_scope.
Open Scope Z_scope.

(** ** Results of code that may panic

    [Ok a] is a call that has returned [a]; the values a Go function
    returns, its [error] among them, are all part of [a]. *)

Inductive result (A : Type) : Type :=
| Ok (a : A)
| Panic.
Arguments Ok {A} a.
Arguments Panic {A}.

#[global] Instance result_bind : MBind result := fun A B k m =>
  match m with
  | Ok a => k a
  | Panic => Panic
  end.
#[global] Instance result_ret : MRet result := fun A a => Ok a.

(** ** The Go library functions the package calls

    These are models of the Go standard library on a system whose path
    separator is the slash. *)

Module GoStrings.

Definition slash : ascii := "/"%char.
Definition dot : ascii := "."%char.

Definition len (s : string) : Z := Z.of_nat (String.length s).

Fixpoint str_take (n : nat) (s : string) : string :=
  match n, s with
  | S n', String c s' => String c (str_take n' s')
  | _, _ => ""
  end.

Fixpoint str_drop (n : nat) (s : string) : string :=
  match n, s with
  | S n', String _ s' => str_drop n' s'
  | _, _ => s
  end.

(** [s[:hi]], which panics unless [0 <= hi <= len(s)]. *)
Definition slice_to (s : string) (hi : Z) : result string :=
  if (0 <=? hi) && (hi <=? len s) then Ok (str_take (Z.to_nat hi) s) else Panic.

(** [s[lo:]], which panics unless [0 <= lo <= len(s)]. *)
Definition slice_from (s : string) (lo : Z) : result string :=
  if (0 <=? lo) && (lo <=? len s) then Ok (str_drop (Z.to_nat lo) s) else Panic.

(** [strings.Split(s, "/")]: the substrings between the slashes; one
    element more than there are slashes, so never empty. *)
Fixpoint Split (s : string) : list string :=
  match s with
  | "" => [""]
  | String c s' =>
      if Ascii.eqb c slash then "" :: Split s'
      else match Split s' with
           | x :: xs => String c x :: xs
           | [] => [String c ""]
           end
  end.

(** [strings.Join(elems, "/")]. *)
Fixpoint Join (elems : list string) : string :=
  match elems with
  | [] => ""
  | [e] => e
  | e :: es => e ++ "/" ++ Join es
  end.

Fixpoint LastIndex_from (s : string) (i last : Z) : Z :=
  match s with
  | "" => last
  | String c s' => LastIndex_from s' (i + 1) (if Ascii.eqb c slash then i else last)
  end.

(** [strings.LastIndex(s, "/")]: the index of the last slash, or -1. *)
Definition LastIndex (s : string) : Z := LastIndex_from s 0 (-1).

Fixpoint contains_slash (s : string) : bool :=
  match s with
  | "" => false
  | String c s' => Ascii.eqb c slash || contains_slash s'
  end.

Definition HasSuffix (s suffix : string) : bool :=
  let n := String.length s in
  let m := String.length suffix in
  (m <=? n)%nat && String.eqb (str_drop (n - m) s) suffix.

(** [strings.TrimSuffix(s, suffix)]. *)
Definition TrimSuffix (s suffix : string) : string :=
  if HasSuffix s suffix then str_take (String.length s - String.length suffix) s else s.

End GoStrings.

Module GoFilepath.
Import GoStrings.

(** One step of [Clean] over the elements of a path: empty elements and
    [.] are dropped, [..] removes the element before it, and is kept
    only at the front of a path that is not rooted. [out] is the
    cleaned path so far, last element first. *)
Definition clean_step (rooted : bool) (out : list string) (e : string) : list string :=
  if String.eqb e "" || String.eqb e "." then out
  else if String.eqb e ".." then
    match out with
    | top :: out' => if String.eqb top ".." then e :: out else out'
    | [] => if rooted then out else [e]
    end
  else e :: out.

(** [filepath.Clean(path)]. *)
Definition Clean (path : string) : string :=
  match path with
  | "" => "."
  | String c _ =>
      let rooted := Ascii.eqb c slash in
      let out := rev (fold_left (clean_step rooted) (Split path) []) in
      if rooted then "/" ++ Join out
      else match out with [] => "." | _ => Join out end
  end.

(** [filepath.Join(elem...)]: the elements from the first one that is
    not empty on are joined with slashes and cleaned. *)
Fixpoint Join (elem : list string) : string :=
  match elem with
  | [] => ""
  | e :: es => if String.eqb e "" then Join es else Clean (GoStrings.Join elem)
  end.

(** [filepath.Dir(path)]: the path up to and with its last slash,
    cleaned. *)
Definition Dir (path : string) : string :=
  Clean (str_take (Z.to_nat (LastIndex path + 1)) path).

Fixpoint strip_slashes (rev_path : list ascii) : list ascii :=
  match rev_path with
  | c :: r => if Ascii.eqb c slash then strip_slashes r else rev_path
  | [] => []
  end.

(** [filepath.Base(path)]: the last element of the path. *)
Definition Base (path : string) : string :=
  match path with
  | "" => "."
  | _ =>
      let p := string_of_list_ascii (rev (strip_slashes (rev (list_ascii_of_string path)))) in
      let p := str_drop (Z.to_nat (LastIndex p + 1)) p in
      match p with "" => "/" | _ => p end
  end.

Fixpoint last_dot (s : string) (i : nat) (last : option nat) : option nat :=
  match s with
  | "" => last
  | String c s' => last_dot s' (S i) (if Ascii.eqb c dot then Some i else last)
  end.

(** [filepath.Ext(path)]: the suffix of the last element that begins
    at its last dot, empty when it has none. *)
Definition Ext (path : string) : string :=
  let e := str_drop (Z.to_nat (LastIndex path + 1)) path in
  match last_dot e 0%nat None with
  | Some i => str_drop i e
  | None => ""
  end.

(** [filepath.ToSlash(path)]: the separator is the slash already. *)
Definition ToSlash (path : string) : string := path.

End GoFilepath.

(** ** Go maps with string keys

    An association list whose keys are unique. [put] overwrites the entry
    of a key that is present, where it stands, and adds a new key at the
    end. *)

Module GoMap.
Section Ops.
Context {V : Type}.

Fixpoint get (k : string) (m : list (string * V)) : option V :=
  match m with
  | [] => None
  | (k', v) :: m' => if String.eqb k k' then Some v else get k m'
  end.

Fixpoint put (k : string) (v : V) (m : list (string * V)) : list (string * V) :=
  match m with
  | [] => [(k, v)]
  | (k', v') :: m' => if String.eqb k k' then (k, v) :: m' else (k', v') :: put k v m'
  end.

Definition keys (m : list (string * V)) : list string := map fst m.
End Ops.
End GoMap.

(** ** The types of package [model]

    The declarations of package [model] are not part of the sources at
    hand; the records have the fields that package [build] reads and
    writes, with the types its expressions give them. A creation date
    ([time.Time]) is the instant it denotes, as a number. *)

Module model.

(** [*model.Article]: an address into the article store. *)
Abbreviation addr := nat (only parsing).

Record Page : Type := mkPage { Path : string }.

Record ArticlePage : Type := mkArticlePage {
  ap_Page : Page;
  ap_Article : addr }.

Record Article : Type := mkArticle {
  ID : string;
  Date : Z;
  Hide : bool;
  Related : list string;
  RelatedPages : list (option ArticlePage) }.

(** The list page of [build/site.go]. *)
Record ArticleListPage : Type := mkArticleListPage {
  alp_Page : Page;
  alp_Articles : list addr }.

(** The list page and the index page of the builder. *)
Record ListPage : Type := mkListPage {
  lp_Page : Page;
  lp_ArticlePages : list (option ArticlePage) }.

Record IndexPage : Type := mkIndexPage {
  ip_Page : Page;
  ip_Article : addr;
  ip_ArticlePages : list (option ArticlePage) }.

End model.

(** ** The route tree of [build/site.go] *)

Module SiteTree.
Import model.

(** [Route]. [ListPage] is a pointer, nil in the root. *)
#[warnings="-register-all"] Inductive Route : Type := mkRoute {
  Pages : list ArticlePage;
  ListPage : option ArticleListPage;
  Children : list (string * Route) }.

(** [Site]; [Nav] and [Footer] are not touched by the tree operations. *)
Record Site : Type := mkSite { root : Route }.

Definition newSite : Site :=
  {| root := {| Pages := []; ListPage := None; Children := [] |} |}.

Definition newRoute : Route :=
  {| Pages := [];
     ListPage := Some {| alp_Page := {| Path := "" |}; alp_Articles := [] |};
     Children := [] |}.

(** [r.ListPage.Path = path]; a nil [ListPage] would panic, and is
    never met: the assignment follows [newRoute]. *)
Definition setListPagePath (path : string) (r : Route) : Route :=
  {| Pages := Pages r;
     ListPage := match ListPage r with
                 | Some lp => Some {| alp_Page := {| Path := path |}; alp_Articles := alp_Articles lp |}
                 | None => None
                 end;
     Children := Children r |}.

(** [r.Pages = append(r.Pages, page)]. *)
Definition appendPage (page : ArticlePage) (r : Route) : Route :=
  {| Pages := Pages r ++ [page]; ListPage := ListPage r; Children := Children r |}.

Definition setChildren (r : Route) (cs : list (string * Route)) : Route :=
  {| Pages := Pages r; ListPage := ListPage r; Children := cs |}.

(** The loop of [registerPage], from segment [i] on; [rest] is
    [segments[i:]] and [node] the route the loop has walked down to.
    The child under [seg] is created when it is missing, the page is
    appended to it at the last segment, and the loop goes on in it
    otherwise. The result is [node] after the mutation. *)
Fixpoint registerLoop (page : ArticlePage) (segments : list string) (i : nat)
    (rest : list string) (node : Route) : Route :=
  match rest with
  | [] => node
  | seg :: rest' =>
      let child :=
        match GoMap.get seg (Children node) with
        | Some c => c
        | None => setListPagePath (GoFilepath.Join (take i segments)) newRoute
        end in
      let child' :=
        if (i =? length segments - 1)%nat then appendPage page child
        else registerLoop page segments (S i) rest' child in
      setChildren node (GoMap.put seg child' (Children node))
  end.

(** [func (s *Site) registerPage(page *model.ArticlePage)]. *)
Definition registerPage (page : ArticlePage) (s : Site) : Site :=
  let segments := GoStrings.Split (Path (ap_Page page)) in
  {| root := registerLoop page segments 0 segments (root s) |}.

(** The route at a path of segments, from [r] down. *)
Fixpoint resolve (path : list string) (r : Route) : option Route :=
  match path with
  | [] => Some r
  | seg :: path' =>
      match GoMap.get seg (Children r) with
      | Some c => resolve path' c
      | None => None
      end
  end.

(** The pages registered at a path; none where there is no route. *)
Definition pagesAt (path : list string) (r : Route) : list ArticlePage :=
  match resolve path r with
  | Some c => Pages c
  | None => []
  end.

(** A Go map has one entry for a key, at every route of the tree. *)
#[warnings="-register-all"] Inductive wf_route : Route -> Prop :=
| wf_route_intro ps lp cs :
    NoDup (GoMap.keys cs) ->
    Forall (fun kc => wf_route (snd kc)) cs ->
    wf_route {| Pages := ps; ListPage := lp; Children := cs |}.

Fixpoint height (r : Route) : nat :=
  match r with
  | mkRoute _ _ cs =>
      (fix heights (cs : list (string * Route)) : nat :=
         match cs with
         | [] => O
         | (_, c) :: cs' => Nat.max (S (height c)) (heights cs')
         end) cs
  end.

(** *** Walking the tree *)

(** A Go [int] after an increment. *)
Definition wrap64 (z : Z) : Z := (z + 2 ^ 63) mod 2 ^ 64 - 2 ^ 63.

Section Walk.
Context {St : Type}.

(** The callback gets a pointer to the route: it may change the route
    and whatever state [St] it has captured. *)
Variable walkFn : Route -> St -> Route * St.

(** [for _, route := range route.Children { ... }], with [visit] the
    body of the loop. *)
Fixpoint rangeChildren (visit : Route -> St -> option (Route * St))
    (cs : list (string * Route)) (st : St) : option (list (string * Route) * St) :=
  match cs with
  | [] => Some ([], st)
  | (k, c) :: cs' =>
      match visit c st with
      | None => None
      | Some (c', st') =>
          match rangeChildren visit cs' st' with
          | None => None
          | Some (cs'', st'') => Some ((k, c') :: cs'', st'')
          end
      end
  end.

(** [walkRoute]. The recursion follows the routes as the callback
    leaves them, so it is bounded by [fuel]; [None] is a walk that
    has not finished within it. *)
Fixpoint walkRoute (fuel : nat) (route : Route) (depth currentDepth : Z) (st : St)
    : option (Route * St) :=
  match fuel with
  | O => None
  | S fuel' =>
      if negb (depth =? -1) && (currentDepth =? depth) then Some (route, st)
      else
        let currentDepth := wrap64 (currentDepth + 1) in
        match rangeChildren
                (fun c st =>
                   let '(c1, st1) := walkFn c st in
                   walkRoute fuel' c1 depth currentDepth st1)
                (Children route) st with
        | None => None
        | Some (cs, st') => Some (setChildren route cs, st')
        end
  end.

(** [WalkRoutes]. *)
Definition WalkRoutes (fuel : nat) (s : Site) (depth : Z) (st : St) : option (Site * St) :=
  match walkRoute fuel (root s) depth 0 st with
  | None => None
  | Some (r, st') => Some ({| root := r |}, st')
  end.
End Walk.

(** The routes below [r] down to [n] levels, each with its path from
    [r], a route before its descendants. *)
Fixpoint below (n : nat) (r : Route) : list (list string * Route) :=
  match n with
  | O => []
  | S n' =>
      flat_map (fun kc => ([fst kc], snd kc)
                          :: map (fun pc => (fst kc :: fst pc, snd pc)) (below n' (snd kc)))
               (Children r)
  end.

End SiteTree.

(** ** The builder *)

Module Builder.
Import model GoStrings.

(** [RouteInfo]: what the callbacks of the builder's passes are handed for
    a route. Its declaration is not part of the sources at hand; the
    fields are those the passes use. *)
Record RouteInfo : Type := mkRouteInfo {
  Pages : list ArticlePage;
  IndexPage : option model.IndexPage;
  ListPage : option model.ListPage }.

(** Modelled from the spec: the [Site] of the builder, whose declaration
    is missing. It holds the routes of the site, every route once, under
    its path; the order of the list is the order in which a walk visits
    them, which the spec leaves open. *)
Record Site : Type := mkSite { routes : list (string * RouteInfo) }.

(** What a pass works on: the site model of the builder ([b.model]) and
    the articles that the pages point to. *)
Record Build : Type := mkBuild {
  site : Site;
  store : list Article }.

(** [*p] for an article pointer [p]; nil and any other address that holds
    no article panic. *)
Definition deref (σ : list Article) (a : addr) : result Article :=
  match σ !! a with
  | Some x => Ok x
  | None => Panic
  end.

(** A [*RouteInfo] is the position of the route in the site. *)
Definition getRoute (i : nat) (b : Build) : result RouteInfo :=
  match routes (site b) !! i with
  | Some kv => Ok (snd kv)
  | None => Panic
  end.

Definition setRoute (i : nat) (ri : RouteInfo) (b : Build) : Build :=
  {| site := {| routes := alter (fun kv => (fst kv, ri)) i (routes (site b)) |};
     store := store b |}.

Definition setArticle (a : addr) (x : Article) (b : Build) : Build :=
  {| site := site b; store := <[a := x]> (store b) |}.

Fixpoint walkLoop (walkFn : string -> nat -> Build -> result Build)
    (todo : list (string * nat)) (b : Build) : result Build :=
  match todo with
  | [] => Ok b
  | (r, i) :: todo' => b' ← walkFn r i b; walkLoop walkFn todo' b'
  end.

(** Modelled from the spec: [WalkRoutes(walkFn)] with a callback
    [func(r string, i *RouteInfo)], which is missing from the sources. It
    visits every route of the site and invokes the callback once per
    route, with the path of the route and a pointer to it. *)
Definition WalkRoutes (walkFn : string -> nat -> Build -> result Build) (b : Build)
    : result Build :=
  walkLoop walkFn (imap (fun i kv => (fst kv, i)) (routes (site b))) b.

(** *** [sort.Slice]

    The library promises a slice that is sorted by [less] and holds the
    elements it held before, for a [less] that is a strict weak ordering;
    it does not promise to keep equal elements in their order. A sorter is
    any function that keeps this promise; in a slice that is [sorted_by],
    no element is [less] than one before it. *)

Definition sorted_by {A} (less : A -> A -> bool) (l : list A) : Prop :=
  StronglySorted (fun x y => less y x = false) l.

Record strict_weak {A} (less : A -> A -> bool) : Prop := {
  sw_asym : forall x y, less x y = true -> less y x = false;
  sw_negtrans : forall x y z, less x y = false -> less y z = false -> less x z = false }.

Class Sorter : Type := {
  sort_Slice : forall A, (A -> A -> bool) -> list A -> list A;
  sort_Slice_perm : forall A (less : A -> A -> bool) l, sort_Slice less l ≡ₚ l;
  sort_Slice_sorted : forall A (less : A -> A -> bool) l,
    strict_weak less -> sorted_by less (sort_Slice less l) }.

(** Insertion sort as the library runs it on a short slice: every element
    in turn moves towards the front for as long as it is [less] than the
    element before it. [front] is the sorted part, last element first. *)
Fixpoint insertBack {A} (less : A -> A -> bool) (x : A) (front : list A) : list A :=
  match front with
  | [] => [x]
  | y :: front' => if less x y then y :: insertBack less x front' else x :: front
  end.

Definition insertionSort {A} (less : A -> A -> bool) (l : list A) : list A :=
  reverse (fold_left (fun front x => insertBack less x front) l []).

Section Passes.
Context {sorter : Sorter}.
Variable error : Type.

(** [resolvePath(path, id)] of the site is missing from the sources and is
    a parameter of the passes: it returns a page pointer, nil or not, and
    an error, nil or not. *)
Variable resolvePath : Build -> string -> string -> option ArticlePage * option error.

(** [page.Article.Date] and [page.Article.Hide], where the article can
    be read; where it cannot, the code that asks panics before it would
    use the value. *)
Definition dateOf (σ : list Article) (p : ArticlePage) : Z :=
  match σ !! ap_Article p with
  | Some a => Date a
  | None => 0
  end.

Definition readable (σ : list Article) (p : ArticlePage) : bool :=
  match σ !! ap_Article p with
  | Some _ => true
  | None => false
  end.

(** [i.Pages[a].Article.Date.After(i.Pages[b].Article.Date)]. *)
Definition dateAfter (σ : list Article) (p q : ArticlePage) : bool :=
  dateOf σ q <? dateOf σ p.

(** [sort.Slice(i.Pages, ...)]: it sorts the slice of the route itself.
    A slice of fewer than two pages is not compared at all; in a longer
    one every page is compared, and the comparison reads its article. *)
Definition sortPagesByDate (σ : list Article) (pages : list ArticlePage)
    : result (list ArticlePage) :=
  if (length pages <? 2)%nat || forallb (readable σ) pages
  then Ok (sort_Slice (dateAfter σ) pages)
  else Panic.

(** The loop over [i.Pages] that fills [i.ListPage.ArticlePages]: a page
    whose article is hidden is passed over, any other is stored at its
    own index [n], which is within the slice. *)
Fixpoint fillArticlePages (σ : list Article) (n : nat) (pages : list ArticlePage)
    (out : list (option ArticlePage)) : result (list (option ArticlePage)) :=
  match pages with
  | [] => Ok out
  | page :: pages' =>
      a ← deref σ (ap_Article page);
      if Hide a then fillArticlePages σ (S n) pages' out
      else fillArticlePages σ (S n) pages' (<[n := Some page]> out)
  end.

(** The callback of [buildListPages]. *)
Definition buildListPagesFn (sortPages : bool) (r : string) (i : nat) (b : Build)
    : result Build :=
  ri ← getRoute i b;
  match IndexPage ri with
  | Some _ => Ok b
  | None =>
      let listPage :=
        {| lp_Page := {| Path := r |};
           lp_ArticlePages := replicate (length (Pages ri)) None |} in
      pages ← (if sortPages then sortPagesByDate (store b) (Pages ri) else Ok (Pages ri));
      articlePages ← fillArticlePages (store b) 0 pages (lp_ArticlePages listPage);
      Ok (setRoute i {| Pages := pages;
                        IndexPage := IndexPage ri;
                        ListPage := Some {| lp_Page := lp_Page listPage;
                                            lp_ArticlePages := articlePages |} |} b)
  end.

(** [func (b *builder) buildListPages(sortPages bool) error]; the error
    it returns is nil. *)
Definition buildListPages (sortPages : bool) (b : Build) : result Build :=
  WalkRoutes (buildListPagesFn sortPages) b.

(** [i.IndexPage.ArticlePages = append(i.IndexPage.ArticlePages, page)]. *)
Definition appendToIndexPage (i : nat) (page : ArticlePage) (b : Build) : result Build :=
  ri ← getRoute i b;
  match IndexPage ri with
  | None => Panic
  | Some ip =>
      Ok (setRoute i {| Pages := Pages ri;
                        IndexPage := Some {| ip_Page := ip_Page ip;
                                             ip_Article := ip_Article ip;
                                             ip_ArticlePages := ip_ArticlePages ip ++ [Some page] |};
                        ListPage := ListPage ri |} b)
  end.

(** [for _, page := range i2.Pages { ... }] of the inner callback. *)
Fixpoint appendVisible (i : nat) (pages : list ArticlePage) (b : Build) : result Build :=
  match pages with
  | [] => Ok b
  | page :: pages' =>
      a ← deref (store b) (ap_Article page);
      if Hide a then appendVisible i pages' b
      else b' ← appendToIndexPage i page b; appendVisible i pages' b'
  end.

(** The callback of [addArticlePagesToIndexPages]: a route that has an
    index page walks all routes again. *)
Definition addArticlePagesFn (r : string) (i : nat) (b : Build) : result Build :=
  ri ← getRoute i b;
  match IndexPage ri with
  | None => Ok b
  | Some _ =>
      WalkRoutes (fun r2 i2 b => ri2 ← getRoute i2 b; appendVisible i (Pages ri2) b) b
  end.

(** [func (b *builder) addArticlePagesToIndexPages() error]; the error it
    returns is nil. *)
Definition addArticlePagesToIndexPages (b : Build) : result Build :=
  WalkRoutes addArticlePagesFn b.

(** The body of the loop over [p.Article.Related]: the link is cut at its
    last slash, the two parts are resolved, and the page that comes back
    is appended to [p.Article.RelatedPages]; the error is dropped. *)
Definition relateLink (p : ArticlePage) (link : string) (b : Build) : result Build :=
  path ← slice_to link (LastIndex link);
  id ← slice_from link (len path + 1);
  let '(page, _) := resolvePath b path id in
  a ← deref (store b) (ap_Article p);
  Ok (setArticle (ap_Article p)
        {| ID := ID a; Date := Date a; Hide := Hide a; Related := Related a;
           RelatedPages := RelatedPages a ++ [page] |} b).

Fixpoint relateLinks (p : ArticlePage) (links : list string) (b : Build) : result Build :=
  match links with
  | [] => Ok b
  | link :: links' => b' ← relateLink p link b; relateLinks p links' b'
  end.

(** [for _, p := range i.Pages { for _, link := range p.Article.Related ... }]. *)
Fixpoint relatePages (pages : list ArticlePage) (b : Build) : result Build :=
  match pages with
  | [] => Ok b
  | p :: pages' =>
      a ← deref (store b) (ap_Article p);
      b' ← relateLinks p (Related a) b;
      relatePages pages' b'
  end.

Definition buildRelatedFn (r : string) (i : nat) (b : Build) : result Build :=
  ri ← getRoute i b; relatePages (Pages ri) b.

(** [func (b *builder) buildRelated() error]; the error it returns is nil. *)
Definition buildRelated (b : Build) : result Build :=
  WalkRoutes buildRelatedFn b.

(** *** [buildPage] *)

Inductive registerMode : Type := NoRegister | DirectRegister.

(** The build context: [BuildPath] and the parser, which hands out a new
    article or an error; [config.ContentDir], a constant of a package that
    is not part of the sources at hand. *)
Variable BuildPath : string.
Variable ContentDir : string.
Variable ParseArticle : list Byte.byte -> Article + error.

(** [registerPage] and [registerIndexPage] of the site. The first is in
    [build/site.go] for the route tree; the second is missing. Both only
    lock the mutex around the call into the site. *)
Variable registerPage : ArticlePage -> Site -> Site.
Variable registerIndexPage : model.IndexPage -> Site -> Site.

(** [func (b *builder) buildPage(source []byte, file string, mode
    registerMode)], which returns a page pointer and an error: the result
    is the pair it returns and the builder after the call. *)
Definition buildPage (source : list Byte.byte) (file : string) (mode : registerMode)
    (b : Build) : result (option ArticlePage * option error * Build) :=
  match ParseArticle source with
  | inr err => Ok (None, Some err, b)
  | inl parsed =>
      let article := length (store b) in
      let contentDirLen := len (BuildPath ++ "/" ++ ContentDir) in
      contentDirLen ←
        (if String.eqb BuildPath "." then
           front ← slice_to file (len ContentDir);
           Ok (if String.eqb front ContentDir then len ContentDir else contentDirLen)
         else Ok contentDirLen);
      relativePath ← slice_from file contentDirLen;
      let route := GoFilepath.ToSlash (GoFilepath.Dir relativePath) in
      let id := TrimSuffix (GoFilepath.Base file) (GoFilepath.Ext file) in
      let σ := (store b ++ [ {| ID := id; Date := Date parsed; Hide := Hide parsed;
                                Related := Related parsed;
                                RelatedPages := RelatedPages parsed |} ])%list in
      let page := {| Path := route |} in
      let model' :=
        if String.eqb id "index"
        then registerIndexPage {| ip_Page := page; ip_Article := article; ip_ArticlePages := [] |} (site b)
        else registerPage {| ap_Page := page; ap_Article := article |} (site b) in
      Ok (Some {| ap_Page := page; ap_Article := article |}, None,
          {| site := model'; store := σ |})
  end.

End Passes.

(** Modelled from the spec: [registerPage] of the builder's site, whose
    routes carry an index page. The page is appended to the pages of the
    route of its path; the route is created when it is missing. *)
Definition registerPage (page : ArticlePage) (s : Site) : Site :=
  let path := Path (ap_Page page) in
  let ri := match GoMap.get path (routes s) with
            | Some ri => ri
            | None => {| Pages := []; IndexPage := None; ListPage := None |}
            end in
  {| routes := GoMap.put path {| Pages := Pages ri ++ [page];
                                 IndexPage := IndexPage ri;
                                 ListPage := ListPage ri |} (routes s) |}.

(** Modelled from the spec: [registerIndexPage], which is missing: a file
    whose identifier is [index] is registered as the index page of its
    route instead of as an ordinary page. *)
Definition registerIndexPage (indexPage : model.IndexPage) (s : Site) : Site :=
  let path := Path (ip_Page indexPage) in
  let ri := match GoMap.get path (routes s) with
            | Some ri => ri
            | None => {| Pages := []; IndexPage := None; ListPage := None |}
            end in
  {| routes := GoMap.put path {| Pages := Pages ri;
                                 IndexPage := Some indexPage;
                                 ListPage := ListPage ri |} (routes s) |}.

(** Modelled from the spec: [resolvePath], which is missing: the route of
    the path is looked up, then the page of the article id in it; a miss
    of either is a not-found error, with no page. *)
Definition resolvePath (b : Build) (path id : string) : option ArticlePage * option string :=
  match GoMap.get path (routes (site b)) with
  | None => (None, Some "route not found")
  | Some ri =>
      match find (fun p => match store b !! ap_Article p with
                           | Some a => String.eqb (ID a) id
                           | None => false
                           end) (Pages ri) with
      | Some p => (Some p, None)
      | None => (None, Some "article not found")
      end
  end.

End Builder.

(** * Properties *)

Open Scope list_scope.
Unset Implicit Arguments.

(** ** The library models on the paths of the documentation *)

Example Split_empty : GoStrings.Split "" = [""].
Proof. reflexivity. Qed.

Example Split_blog_coffee : GoStrings.Split "blog/coffee" = ["blog"; "coffee"].
Proof. reflexivity. Qed.

Example Clean_examples :
  map GoFilepath.Clean ["a/c"; "a//c"; "a/c/."; "a/c/b/.."; "/../a/c"; "/../a/b/../././/c"; ""; "../../a"; "/"; "a/.."]
  = ["a/c"; "a/c"; "a/c"; "a/c"; "/a/c"; "/a/c"; "."; "../../a"; "/"; "."].
Proof. reflexivity. Qed.

Example Dir_examples :
  map GoFilepath.Dir ["/blog/category-1/post.md"; "/post.md"; "post.md"; "blog/post.md"; ""]
  = ["/blog/category-1"; "/"; "."; "blog"; "."].
Proof. reflexivity. Qed.

Example Base_Ext_examples :
  (GoFilepath.Base "my-site/content/blog/post.md", GoFilepath.Ext "my-site/content/blog/post.md",
   GoFilepath.Base "a/b/", GoFilepath.Ext "a.b/c", GoFilepath.Base "///")
  = ("post.md", ".md", "b", "", "/").
Proof. reflexivity. Qed.

Example Join_examples :
  map GoFilepath.Join [[]; ["blog"]; ["blog"; "coffee"]; [""; ""]; [""; "a"]; ["a"; ""; "b"]]
  = [""; "blog"; "blog/coffee"; ""; "a"; "a/b"].
Proof. reflexivity. Qed.

Lemma Split_not_nil (s : string) : GoStrings.Split s <> [].
Proof.
  destruct s as [|c s]; simpl; [discriminate|].
  destruct (Ascii.eqb c GoStrings.slash); [discriminate|].
  destruct (GoStrings.Split s); discriminate.
Qed.

(** ** Go maps *)

Section GoMapFacts.
Context {V : Type}.
Implicit Types (m : list (string * V)) (k : string) (v : V).

Lemma get_put_eq k v m : GoMap.get k (GoMap.put k v m) = Some v.
Proof.
  induction m as [|[k' v'] m IH]; simpl.
  - by rewrite String.eqb_refl.
  - destruct (String.eqb k k') eqn:E; simpl.
    + by rewrite String.eqb_refl.
    + by rewrite E.
Qed.

Lemma get_put_ne k k' v m : k <> k' -> GoMap.get k' (GoMap.put k v m) = GoMap.get k' m.
Proof.
  intros Hne. induction m as [|[k0 v0] m IH]; simpl.
  - destruct (String.eqb_spec k' k); congruence.
  - destruct (String.eqb_spec k k0) as [->|]; simpl.
    + destruct (String.eqb_spec k' k0); congruence.
    + by rewrite IH.
Qed.

Lemma get_None_keys k m : GoMap.get k m = None <-> ~ In k (GoMap.keys m).
Proof.
  induction m as [|[k' v'] m IH]; simpl; [tauto|].
  destruct (String.eqb_spec k k') as [->|Hne].
  - split; [discriminate|]. intros H. exfalso. apply H. by left.
  - rewrite IH. split; [intros H [?|?]; [congruence|tauto]|tauto].
Qed.

Lemma keys_put k v m :
  GoMap.keys (GoMap.put k v m)
  = match GoMap.get k m with
    | Some _ => GoMap.keys m
    | None => GoMap.keys m ++ [k]
    end.
Proof.
  induction m as [|[k' v'] m IH]; simpl; [done|].
  destruct (String.eqb_spec k k') as [->|Hne]; simpl; [done|].
  rewrite IH. by destruct (GoMap.get k m).
Qed.

Lemma keys_put_NoDup k v m : NoDup (GoMap.keys m) -> NoDup (GoMap.keys (GoMap.put k v m)).
Proof.
  intros Hnd. rewrite keys_put. destruct (GoMap.get k m) eqn:E; [done|].
  apply NoDup_app. split_and!; [done| |apply NoDup_singleton].
  intros x Hx Hk. apply list_elem_of_singleton in Hk as ->.
  apply get_None_keys in E. apply E. by apply list_elem_of_In.
Qed.

Lemma get_In k v m : NoDup (GoMap.keys m) -> GoMap.get k m = Some v <-> In (k, v) m.
Proof.
  induction m as [|[k' v'] m IH]; simpl; intros Hnd.
  - split; [discriminate|tauto].
  - apply NoDup_cons in Hnd as [Hk Hnd].
    destruct (String.eqb_spec k k') as [->|Hne].
    + split; [intros [= ->]; by left|].
      intros [[= ->]|Hin]; [done|]. exfalso. apply Hk.
      apply list_elem_of_In. change k' with (fst (k', v)). by apply in_map.
    + rewrite (IH Hnd). split; [tauto|]. intros [[= -> ->]|?]; [done|tauto].
Qed.

Lemma put_Forall (P : string * V -> Prop) k v m :
  P (k, v) -> Forall P m -> Forall P (GoMap.put k v m).
Proof.
  intros Hk. induction 1 as [|[k' v'] m Hx Hm IH]; simpl.
  - by constructor.
  - destruct (String.eqb k k'); by constructor.
Qed.

Lemma get_Forall (P : string * V -> Prop) k v m :
  Forall P m -> GoMap.get k m = Some v -> P (k, v).
Proof.
  induction 1 as [|[k' v'] m Hx Hm IH]; simpl; [discriminate|].
  destruct (String.eqb_spec k k') as [->|]; [by intros [= <-]|done].
Qed.

End GoMapFacts.

(** ** The route tree *)

Module SiteTreeFacts.
Import model SiteTree.

Lemma registerLoop_cons page segs i seg rest node :
  registerLoop page segs i (seg :: rest) node
  = let child := match GoMap.get seg (Children node) with
                 | Some c => c
                 | None => setListPagePath (GoFilepath.Join (take i segs)) newRoute
                 end in
    setChildren node
      (GoMap.put seg
         (if (i =? length segs - 1)%nat then appendPage page child
          else registerLoop page segs (S i) rest child)
         (Children node)).
Proof. reflexivity. Qed.

(** The test for the last segment, on the segments that are left. *)
Lemma last_segment_test (segs rest : list string) (i : nat) :
  (i + S (length rest) = length segs)%nat ->
  (i =? length segs - 1)%nat = match rest with [] => true | _ => false end.
Proof.
  intros H. destruct rest; simpl in *.
  - apply Nat.eqb_eq. lia.
  - apply Nat.eqb_neq. lia.
Qed.

Lemma resolve_cons k q r :
  resolve (k :: q) r = match GoMap.get k (Children r) with
                       | Some c => resolve q c
                       | None => None
                       end.
Proof. reflexivity. Qed.

Lemma resolve_fresh path q : q <> [] -> resolve q (setListPagePath path newRoute) = None.
Proof. by destruct q. Qed.

Lemma pagesAt_fresh path q : pagesAt q (setListPagePath path newRoute) = [].
Proof. by destruct q. Qed.

Lemma resolve_appendPage page q r : q <> [] -> resolve q (appendPage page r) = resolve q r.
Proof. by destruct q. Qed.

Lemma ListPage_registerLoop page segs rest i node :
  ListPage (registerLoop page segs i rest node) = ListPage node.
Proof. by destruct rest. Qed.

Lemma Pages_registerLoop page segs rest i node :
  Pages (registerLoop page segs i rest node) = Pages node.
Proof. by destruct rest. Qed.

(** The route under [seg] after the loop has run at [node]. *)
Lemma resolve_registerLoop_at page segs i seg rest node q :
  resolve (seg :: q) (registerLoop page segs i (seg :: rest) node)
  = let child := match GoMap.get seg (Children node) with
                 | Some c => c
                 | None => setListPagePath (GoFilepath.Join (take i segs)) newRoute
                 end in
    resolve q (if (i =? length segs - 1)%nat then appendPage page child
               else registerLoop page segs (S i) rest child).
Proof. rewrite registerLoop_cons, resolve_cons. simpl. by rewrite get_put_eq. Qed.

Lemma resolve_registerLoop_other page segs i seg rest node k q :
  seg <> k ->
  resolve (k :: q) (registerLoop page segs i (seg :: rest) node) = resolve (k :: q) node.
Proof.
  intros Hne. rewrite registerLoop_cons, !resolve_cons. simpl. by rewrite get_put_ne.
Qed.

(** The page is appended at the path of the segments, and nowhere else. *)
Lemma pagesAt_registerLoop page segs rest :
  forall i node q,
    (i + length rest = length segs)%nat -> rest <> [] ->
    pagesAt q (registerLoop page segs i rest node)
    = if decide (q = rest) then pagesAt q node ++ [page] else pagesAt q node.
Proof.
  induction rest as [|seg rest IH]; intros i node q Hlen Hne; [done|].
  destruct q as [|k q].
  { rewrite decide_False by done. reflexivity. }
  destruct (decide (seg = k)) as [<-|Hk].
  2:{ rewrite decide_False by congruence. unfold pagesAt.
      by rewrite resolve_registerLoop_other. }
  unfold pagesAt at 1. rewrite resolve_registerLoop_at. simpl in Hlen.
  rewrite (last_segment_test segs rest i) by lia. cbv zeta.
  assert (Hnode : forall q', pagesAt (seg :: q') node
                     = pagesAt q' (match GoMap.get seg (Children node) with
                                   | Some c => c
                                   | None => setListPagePath (GoFilepath.Join (take i segs)) newRoute
                                   end)).
  { intros q'. unfold pagesAt at 1. rewrite resolve_cons.
    destruct (GoMap.get seg (Children node)); [done|]. by rewrite pagesAt_fresh. }
  rewrite !Hnode. set (child := match GoMap.get seg (Children node) with
                                | Some c => c | None => _ end).
  destruct rest as [|seg' rest].
  - destruct q as [|k' q].
    + rewrite decide_True by done. done.
    + rewrite decide_False by congruence.
      rewrite resolve_appendPage by done. done.
  - specialize (IH (S i) child q). unfold pagesAt at 1 in IH.
    rewrite IH by (simpl in *; (lia || done)).
    destruct (decide (q = seg' :: rest)) as [->|Hq].
    + by rewrite decide_True.
    + rewrite decide_False; [done|]. intros [= ?]. done.
Qed.

(** The routes after the loop: those that were there, and the chain of
    the segments. *)
Lemma resolve_registerLoop_is_Some page segs rest :
  forall i node q,
    (i + length rest = length segs)%nat -> rest <> [] ->
    is_Some (resolve q (registerLoop page segs i rest node))
    <-> is_Some (resolve q node) \/ (q <> [] /\ q `prefix_of` rest).
Proof.
  induction rest as [|seg rest IH]; intros i node q Hlen Hne; [done|].
  destruct q as [|k q].
  { simpl. split; [intros _; left; eauto|eauto]. }
  destruct (decide (seg = k)) as [<-|Hk].
  2:{ rewrite resolve_registerLoop_other by done. split; [tauto|].
      intros [?|[_ [l' Hp]]]; [done|]. simpl in Hp. congruence. }
  rewrite resolve_registerLoop_at. simpl in Hlen.
  rewrite (last_segment_test segs rest i) by lia. cbv zeta.
  rewrite resolve_cons.
  assert (Hpre : forall l, (seg :: q) `prefix_of` (seg :: l) <-> q `prefix_of` l).
  { intros l. split; [apply prefix_cons_inv_2|apply prefix_cons]. }
  rewrite Hpre.
  destruct rest as [|seg' rest].
  - destruct q as [|k' q].
    + simpl. split; [intros _; right; split; [done|apply prefix_nil]|eauto].
    + rewrite resolve_appendPage by done.
      destruct (GoMap.get seg (Children node)) as [c|].
      * split; [tauto|]. intros [?|[_ Hp]]; [done|].
        apply prefix_nil_inv in Hp. done.
      * rewrite resolve_fresh by done. split; [intros []; done|].
        intros [[]|[_ Hp]]; [done|]. apply prefix_nil_inv in Hp. done.
  - rewrite (IH (S i)) by (simpl in *; (lia || done)).
    destruct q as [|k' q].
    + simpl. split; [intros _; right; split; [done|apply prefix_nil]|].
      intros _. left. destruct (GoMap.get seg (Children node)); eauto.
    + destruct (GoMap.get seg (Children node)) as [c|].
      * split; (intros [?|[_ ?]]; [by left|by right]).
      * rewrite resolve_fresh by done.
        split; (intros [[]|[_ ?]]; [done|by right]).
Qed.

(** A route that was there is still there, with its list page and with
    its children where they were. *)
Lemma resolve_registerLoop_reuse page segs rest :
  forall i node q r,
    (i + length rest = length segs)%nat -> rest <> [] ->
    resolve q node = Some r ->
    exists r', resolve q (registerLoop page segs i rest node) = Some r'
               /\ ListPage r' = ListPage r
               /\ GoMap.keys (Children r) `prefix_of` GoMap.keys (Children r').
Proof.
  induction rest as [|seg rest IH]; intros i node q r Hlen Hne Hr; [done|].
  destruct q as [|k q].
  { simpl in Hr. injection Hr as <-. eexists. split; [reflexivity|]. split; [done|].
    simpl. rewrite keys_put. destruct (GoMap.get seg (Children node)); [done|].
    by apply prefix_app_r. }
  destruct (decide (seg = k)) as [<-|Hk].
  2:{ rewrite resolve_registerLoop_other by done. eauto. }
  rewrite resolve_registerLoop_at. simpl in Hlen.
  rewrite (last_segment_test segs rest i) by lia. cbv zeta.
  rewrite resolve_cons in Hr.
  destruct (GoMap.get seg (Children node)) as [c|]; [|done].
  destruct rest as [|seg' rest].
  - destruct q as [|k' q].
    + simpl in Hr. injection Hr as <-. eexists. split; [reflexivity|]. done.
    + rewrite resolve_appendPage by done. eauto.
  - apply IH; simpl in *; (lia || done).
Qed.

(** The list page of a route that the loop has created holds the path
    that [filepath.Join] makes of the segments before the route's own. *)
Lemma resolve_registerLoop_created page segs rest :
  forall i node j,
    (i + length rest = length segs)%nat -> (j < length rest)%nat ->
    resolve (take (S j) rest) node = None ->
    exists r', resolve (take (S j) rest) (registerLoop page segs i rest node) = Some r'
               /\ ListPage r' = Some {| alp_Page := {| Path := GoFilepath.Join (take (i + j) segs) |};
                                        alp_Articles := [] |}.
Proof.
  induction rest as [|seg rest IH]; intros i node j Hlen Hj Hr; [simpl in Hj; lia|].
  rewrite firstn_cons in *. rewrite resolve_registerLoop_at. simpl in Hlen, Hj.
  rewrite (last_segment_test segs rest i) by lia. cbv zeta.
  rewrite resolve_cons in Hr.
  destruct j as [|j].
  - rewrite take_0 in *. simpl in Hr.
    destruct (GoMap.get seg (Children node)); [done|].
    rewrite Nat.add_0_r. eexists. split; [reflexivity|].
    destruct rest; [done|]. by rewrite ListPage_registerLoop.
  - destruct rest as [|seg' rest]; [simpl in Hj; lia|].
    replace (i + S j)%nat with (S i + j)%nat by lia.
    apply IH; [simpl in *; lia|simpl in *; lia|].
    destruct (GoMap.get seg (Children node)); [done|]. by apply resolve_fresh.
Qed.

Lemma wf_newRoute path : wf_route (setListPagePath path newRoute).
Proof. constructor; [apply NoDup_nil_2|constructor]. Qed.

Lemma wf_appendPage page r : wf_route r -> wf_route (appendPage page r).
Proof. destruct 1. by constructor. Qed.

(** The loop keeps the keys of every map unique. *)
Lemma wf_registerLoop page segs rest :
  forall i node, wf_route node -> wf_route (registerLoop page segs i rest node).
Proof.
  induction rest as [|seg rest IH]; intros i node Hwf; [done|].
  rewrite registerLoop_cons. cbv zeta. destruct Hwf as [ps lp cs Hnd Hcs]. simpl.
  constructor; [by apply keys_put_NoDup|].
  apply put_Forall; [|done]. simpl.
  assert (wf_route (match GoMap.get seg cs with
                    | Some c => c
                    | None => setListPagePath (GoFilepath.Join (take i segs)) newRoute
                    end)) as Hchild.
  { destruct (GoMap.get seg cs) eqn:E; [|apply wf_newRoute].
    eapply (@get_Forall _ (fun kc => wf_route (snd kc))) in E; eauto. }
  destruct (i =? length segs - 1)%nat; [by apply wf_appendPage|by apply IH].
Qed.

Lemma resolve_app q l r :
  resolve (q ++ l) r = match resolve q r with
                       | Some c => resolve l c
                       | None => None
                       end.
Proof.
  revert r. induction q as [|k q IH]; intros r; [done|].
  simpl. destruct (GoMap.get k (Children r)); [apply IH|done].
Qed.

Lemma resolve_prefix q l r : q `prefix_of` l -> is_Some (resolve l r) -> is_Some (resolve q r).
Proof.
  intros [l' ->]. rewrite resolve_app. destruct (resolve q r); [eauto|by intros []].
Qed.

(** *** Walking *)

Lemma get_Some_In {V} k (v : V) m : GoMap.get k m = Some v -> In (k, v) m.
Proof.
  induction m as [|[k' v'] m IH]; simpl; [done|].
  destruct (String.eqb_spec k k') as [->|]; [intros [= ->]; by left|right; auto].
Qed.

Lemma height_child k c r : In (k, c) (Children r) -> (height c < height r)%nat.
Proof.
  destruct r as [ps lp cs]. simpl.
  induction cs as [|[k' c'] cs IH]; simpl; [done|].
  intros [[= -> ->]|Hin]; [lia|]. specialize (IH Hin). lia.
Qed.

Lemma height_no_children r : height r = 0%nat -> Children r = [].
Proof.
  destruct r as [ps lp [|[k c] cs]]; simpl; [done|lia].
Qed.

Lemma setChildren_id r : setChildren r (Children r) = r.
Proof. by destruct r. Qed.

Lemma resolve_height p : forall r r', resolve p r = Some r' -> (length p <= height r)%nat.
Proof.
  induction p as [|k p IH]; intros r r' Hr; simpl; [lia|].
  rewrite resolve_cons in Hr. destruct (GoMap.get k (Children r)) as [c|] eqn:E; [|done].
  apply get_Some_In, height_child in E. apply IH in Hr. lia.
Qed.

Lemma below_routes n r :
  map snd (below (S n) r)
  = flat_map (fun kc => snd kc :: map snd (below n (snd kc))) (Children r).
Proof.
  simpl. induction (Children r) as [|[k c] cs IH]; simpl; [done|].
  rewrite map_app, IH, map_map. simpl. done.
Qed.

Lemma below_paths n r :
  map fst (below (S n) r)
  = flat_map (fun kc => [fst kc] :: map (cons (fst kc)) (map fst (below n (snd kc)))) (Children r).
Proof.
  simpl. induction (Children r) as [|[k c] cs IH]; simpl; [done|].
  rewrite map_app, IH, !map_map. simpl. done.
Qed.

(** The routes that [below] lists are those that the paths of at most
    [n] segments lead to. *)
Lemma In_below n : forall r p r',
  wf_route r ->
  In (p, r') (below n r) <-> p <> [] /\ (length p <= n)%nat /\ resolve p r = Some r'.
Proof.
  induction n as [|n IH]; intros r p r' Hwf.
  { simpl. split; [done|]. intros (Hp & Hl & _). destruct p; simpl in *; [done|lia]. }
  destruct Hwf as [ps lp cs Hnd Hcs]. simpl below. rewrite in_flat_map. split.
  - intros ([k c] & Hin & Hp). simpl in Hp.
    pose proof (proj1 (List.Forall_forall _ _) Hcs _ Hin) as Hc. simpl in Hc.
    apply (proj2 (@get_In _ k c cs Hnd)) in Hin.
    destruct Hp as [[= <- <-]|Hp].
    + split; [done|]. split; [simpl; lia|]. rewrite resolve_cons. simpl. by rewrite Hin.
    + apply in_map_iff in Hp as ([p0 r0] & [= <- <-] & Hp0).
      apply (IH c p0 r0 Hc) in Hp0 as (Hp0 & Hl & Hr).
      split; [done|]. split; [simpl; lia|]. rewrite resolve_cons. simpl. by rewrite Hin.
  - intros (Hp & Hl & Hr). destruct p as [|k p]; [done|].
    rewrite resolve_cons in Hr. simpl in Hr.
    destruct (GoMap.get k cs) as [c|] eqn:E; [|done].
    apply (proj1 (@get_In _ k c cs Hnd)) in E. exists (k, c). split; [done|]. simpl.
    pose proof (proj1 (List.Forall_forall _ _) Hcs _ E) as Hc. simpl in Hc.
    destruct p as [|k' p].
    + left. simpl in Hr. by injection Hr as ->.
    + right. apply in_map_iff. exists (k' :: p, r'). split; [done|].
      apply (IH c); [done|]. split; [done|]. split; [simpl in *; lia|done].
Qed.

Lemma below_path_not_nil n r : ~ In [] (map fst (below n r)).
Proof.
  destruct n as [|n]; [simpl; tauto|]. rewrite below_paths.
  intros Hin. apply in_flat_map in Hin as ([k c] & _ & [Hin|Hin]); [done|].
  apply in_map_iff in Hin as (? & ? & _). done.
Qed.

(** No path is listed twice. *)
Lemma NoDup_below n : forall r, wf_route r -> NoDup (map fst (below n r)).
Proof.
  induction n as [|n IH]; intros r Hwf; [apply NoDup_nil_2|].
  rewrite below_paths. destruct Hwf as [ps lp cs Hnd Hcs]. simpl Children.
  induction cs as [|[k c] cs IHcs]; simpl; [apply NoDup_nil_2|].
  apply Forall_cons in Hcs as [Hc Hcs]. simpl in Hnd. apply NoDup_cons in Hnd as [Hk Hnd].
  simpl in Hc.
  assert (Hhead : forall x, x ∈ flat_map
             (fun kc : string * Route => [fst kc] :: map (cons (fst kc)) (map fst (below n (snd kc)))) cs ->
             exists k' tl, x = k' :: tl /\ k' ∈ GoMap.keys cs).
  { intros x Hx. apply list_elem_of_In, in_flat_map in Hx as ([k' c'] & Hin & Hx).
    simpl in Hx. exists k'.
    assert (k' ∈ GoMap.keys cs).
    { apply list_elem_of_In. change k' with (fst (k', c')). by apply in_map. }
    destruct Hx as [<-|Hx]; [eauto|].
    apply in_map_iff in Hx as (tl & <- & _). eauto. }
  apply NoDup_cons. split.
  - rewrite elem_of_app. intros [Hin|Hin].
    + apply list_elem_of_In, in_map_iff in Hin as (tl & [= ->] & Hin).
      by apply below_path_not_nil in Hin.
    + apply Hhead in Hin as (k' & tl & [= <- <-] & Hin). done.
  - apply NoDup_app. split_and!.
    + apply (NoDup_fmap_2 (cons k)), IH, Hc.
    + intros x Hx Hx'. apply list_elem_of_In, in_map_iff in Hx as (tl & <- & _).
      apply Hhead in Hx' as (k' & tl' & [= <- <-] & Hin). done.
    + by apply IHcs.
Qed.

Section WalkFacts.
Context {St : Type}.
Variable g : Route -> St -> St.

(** A callback that reads the route and leaves it as it is. *)
Definition readOnly (r : Route) (st : St) : Route * St := (r, g r st).

Definition visitAll (rs : list Route) (st : St) : St :=
  fold_left (fun st r => g r st) rs st.

(** The levels that a walk at [currentDepth] has before it: all of the
    tree when the depth is -1, or what is left down to [depth]. *)
Definition levels_left (depth currentDepth : Z) (n : nat) (r : Route) : Prop :=
  (depth = -1 /\ (height r <= n)%nat)
  \/ (0 <= currentDepth /\ currentDepth + Z.of_nat n = depth /\ depth < 2 ^ 63).

Lemma walkRoute_readOnly fuel :
  forall r depth currentDepth n st,
    (height r < fuel)%nat ->
    levels_left depth currentDepth n r ->
    walkRoute readOnly fuel r depth currentDepth st
    = Some (r, visitAll (map snd (below n r)) st).
Proof.
  induction fuel as [|fuel IH]; intros r depth cd n st Hfuel Hn; [lia|].
  simpl walkRoute.
  destruct (negb (depth =? -1) && (cd =? depth)) eqn:Estop.
  { apply andb_true_iff in Estop as [Hd Hcd].
    apply negb_true_iff, Z.eqb_neq in Hd. apply Z.eqb_eq in Hcd.
    destruct Hn as [[? _]|(? & ? & ?)]; [done|].
    assert (n = 0%nat) as -> by lia. done. }
  destruct n as [|n].
  { destruct Hn as [[-> Hh]|(? & ? & ?)].
    - rewrite (height_no_children r) by lia. simpl.
      rewrite <- (height_no_children r) by lia. by rewrite setChildren_id.
    - apply andb_false_iff in Estop as [Hd|Hcd].
      + apply negb_false_iff, Z.eqb_eq in Hd. lia.
      + apply Z.eqb_neq in Hcd. lia. }
  rewrite below_routes.
  assert (Hkids : forall k c, In (k, c) (Children r) ->
            (height c < fuel)%nat /\ levels_left depth (wrap64 (cd + 1)) n c).
  { intros k c Hin. apply (height_child k) in Hin. split; [lia|].
    destruct Hn as [[-> Hh]|(? & ? & ?)]; [left; split; [done|lia]|].
    right. assert (wrap64 (cd + 1) = cd + 1) as ->.
    { unfold wrap64. rewrite Z.mod_small; lia. }
    lia. }
  assert (Hrange : forall cs st,
            (forall k c, In (k, c) cs ->
               (height c < fuel)%nat /\ levels_left depth (wrap64 (cd + 1)) n c) ->
            rangeChildren
              (fun c st => let '(c1, st1) := readOnly c st in
                           walkRoute readOnly fuel c1 depth (wrap64 (cd + 1)) st1) cs st
            = Some (cs, visitAll
                          (flat_map (fun kc => snd kc :: map snd (below n (snd kc))) cs) st)).
  { clear -IH. induction cs as [|[k c] cs IHcs]; intros st Hcs; [done|].
    simpl. destruct (Hcs k c (or_introl eq_refl)) as [Hh Hl].
    rewrite (IH c depth _ n _ Hh Hl).
    rewrite IHcs by (intros k' c' ?; apply (Hcs k'); by right).
    unfold visitAll. by rewrite fold_left_app. }
  rewrite (Hrange _ _ Hkids). by rewrite setChildren_id.
Qed.

End WalkFacts.

(** *** [registerPage] *)

Lemma wf_newSite : wf_route (root newSite).
Proof. constructor; [apply NoDup_nil_2|constructor]. Qed.

Lemma wf_registerPage page s : wf_route (root s) -> wf_route (root (registerPage page s)).
Proof. apply wf_registerLoop. Qed.

Definition pageAt (path : string) (article : addr) : ArticlePage :=
  {| ap_Page := {| Path := path |}; ap_Article := article |}.
Arguments pageAt path%_string article%_nat.

(** C5: [registerPage] walks the segments of the page's path in order and
    creates the route of a segment where it is missing. After the call
    the routes of the site are those it had and the chain of the
    segments; the page has been appended to the pages of the route at
    the end of the chain and the pages at every other path are as they
    were; a route that was there is still there, with its list page and
    with its children where they were; and when the route of the path
    was there already, no route has been added. *)
Theorem registerPage_walks_the_segments (page : ArticlePage) (s : Site) :
  let segments := GoStrings.Split (Path (ap_Page page)) in
  let s' := registerPage page s in
  (forall q, is_Some (resolve q (root s'))
             <-> is_Some (resolve q (root s)) \/ (q <> [] /\ q `prefix_of` segments))
  /\ (forall q, pagesAt q (root s')
                = if decide (q = segments) then pagesAt q (root s) ++ [page]
                  else pagesAt q (root s))
  /\ (forall q r, resolve q (root s) = Some r ->
        exists r', resolve q (root s') = Some r'
                   /\ ListPage r' = ListPage r
                   /\ GoMap.keys (Children r) `prefix_of` GoMap.keys (Children r'))
  /\ (is_Some (resolve segments (root s)) ->
      forall q, is_Some (resolve q (root s')) <-> is_Some (resolve q (root s))).
Proof.
  intros segments s'. subst s'. unfold registerPage. fold segments. simpl root.
  pose proof (Split_not_nil (Path (ap_Page page))) as Hne. fold segments in Hne.
  assert (Hall : forall q, is_Some (resolve q (registerLoop page segments 0 segments (root s)))
             <-> is_Some (resolve q (root s)) \/ (q <> [] /\ q `prefix_of` segments)).
  { intros q. by apply resolve_registerLoop_is_Some. }
  split_and!.
  - exact Hall.
  - intros q. by apply pagesAt_registerLoop.
  - intros q r. by apply resolve_registerLoop_reuse.
  - intros Hthere q. rewrite Hall. split; [|tauto].
    intros [?|[_ Hpre]]; [done|]. by apply (@resolve_prefix q segments).
Qed.

(** The page at [blog/coffee] of an empty site: the routes [blog] and
    [coffee] below it, and the page in [coffee] alone; a second page at
    the path goes to the same route. *)
Example registerPage_blog_coffee :
  let s1 := registerPage (pageAt "blog/coffee" 0) newSite in
  let s2 := registerPage (pageAt "blog/coffee" 1) s1 in
  GoMap.keys (Children (root s1)) = ["blog"]
  /\ (GoMap.keys ∘ Children <$> resolve ["blog"] (root s1)) = Some ["coffee"]
  /\ pagesAt [] (root s1) = []
  /\ pagesAt ["blog"] (root s1) = []
  /\ pagesAt ["blog"; "coffee"] (root s1) = [pageAt "blog/coffee" 0]
  /\ GoMap.keys (Children (root s2)) = ["blog"]
  /\ (GoMap.keys ∘ Children <$> resolve ["blog"] (root s2)) = Some ["coffee"]
  /\ pagesAt ["blog"; "coffee"] (root s2) = [pageAt "blog/coffee" 0; pageAt "blog/coffee" 1].
Proof. vm_compute. repeat split. Qed.

(** The list page of a route that [registerPage] creates holds the join
    of the segments before the route's own. *)
Lemma registerPage_created_route_path (page : ArticlePage) (s : Site) (j : nat) :
  let segments := GoStrings.Split (Path (ap_Page page)) in
  (j < length segments)%nat ->
  resolve (take (S j) segments) (root s) = None ->
  exists r', resolve (take (S j) segments) (root (registerPage page s)) = Some r'
             /\ ListPage r' = Some {| alp_Page := {| Path := GoFilepath.Join (take j segments) |};
                                      alp_Articles := [] |}.
Proof.
  intros segments Hj Hr.
  destruct (@resolve_registerLoop_created page segments segments 0%nat (root s) j)
    as (r' & H1 & H2); [done|done|done|].
  exists r'. split; [exact H1|]. exact H2.
Qed.

(** C9: the path that [registerPage] stores in the list page of a route
    it creates is not the path of the route: for the page at
    [blog/coffee] the route [blog/coffee] gets the path [blog], and the
    route [blog] the empty path. *)
Theorem registerPage_list_page_path_of_parent :
  let s := registerPage (pageAt "blog/coffee" 0) newSite in
  (ListPage <$> resolve ["blog"; "coffee"] (root s))
  = Some (Some {| alp_Page := {| Path := "blog" |}; alp_Articles := [] |})
  /\ (ListPage <$> resolve ["blog"] (root s))
     = Some (Some {| alp_Page := {| Path := "" |}; alp_Articles := [] |})
  /\ GoStrings.Join ["blog"; "coffee"] = "blog/coffee"
  /\ GoFilepath.Join ["blog"; "coffee"] = "blog/coffee".
Proof. vm_compute. repeat split. Qed.

(** C4 as the specification states it fails: the page at the empty path
    of an empty site is not among the pages of the root, and the root has
    a child. *)
Lemma registerPage_empty_path_not_in_root :
  let page := pageAt "" 0 in
  let s' := registerPage page newSite in
  ~ (Pages (root s') = Pages (root newSite) ++ [page]
     /\ Children (root s') = Children (root newSite)).
Proof. vm_compute. intros [H _]. discriminate H. Qed.

(** C4, amended: the path that is the empty string has one segment, the
    empty string. The page is appended to the pages of the root's child
    under the empty key, which is created when it is missing; the pages
    of the root and its other children are as they were. *)
Theorem registerPage_empty_path (page : ArticlePage) (s : Site) :
  Path (ap_Page page) = "" ->
  let s' := registerPage page s in
  Pages (root s') = Pages (root s)
  /\ ListPage (root s') = ListPage (root s)
  /\ (exists c, GoMap.get "" (Children (root s')) = Some c
                /\ Pages c = pagesAt [""] (root s) ++ [page]
                /\ Children c = match GoMap.get "" (Children (root s)) with
                                | Some c0 => Children c0
                                | None => []
                                end)
  /\ (forall k, k <> "" -> GoMap.get k (Children (root s')) = GoMap.get k (Children (root s))).
Proof.
  intros Hpath s'. subst s'. unfold registerPage. rewrite Hpath.
  change (GoStrings.Split "") with [""]. rewrite registerLoop_cons. cbv zeta.
  simpl. split; [done|]. split; [done|]. split.
  - rewrite get_put_eq. eexists. split; [reflexivity|]. unfold pagesAt. simpl.
    destruct (GoMap.get "" (Children (root s))); done.
  - intros k Hk. by rewrite get_put_ne.
Qed.

Lemma registerPage_empty_path_witness :
  let page := pageAt "" 0 in
  let s' := registerPage page newSite in
  Pages (root s') = Pages (root newSite)
  /\ ListPage (root s') = ListPage (root newSite)
  /\ (exists c, GoMap.get "" (Children (root s')) = Some c
                /\ Pages c = pagesAt [""] (root newSite) ++ [page]
                /\ Children c = match GoMap.get "" (Children (root newSite)) with
                                | Some c0 => Children c0
                                | None => []
                                end)
  /\ (forall k, k <> "" -> GoMap.get k (Children (root s')) = GoMap.get k (Children (root newSite))).
Proof. apply (registerPage_empty_path (pageAt "" 0) newSite). reflexivity. Defined.

(** *** [WalkRoutes] *)

(** C6: [WalkRoutes] with a callback that leaves the routes as they are
    returns, given fuel for the height of the tree, with the site as it
    was, having invoked the callback on the routes of a list [visited]
    in turn. The list has no path twice, and holds the route of every
    path of at least one segment and, unless the depth is -1, of at most
    [depth] segments, and nothing else. With depth 1 these are the
    children of the root. *)
Theorem WalkRoutes_visits_each_route_once {St : Type} (g : Route -> St -> St)
    (s : Site) (depth : Z) (fuel : nat) (st : St) :
  wf_route (root s) ->
  -1 <= depth < 2 ^ 63 ->
  (height (root s) < fuel)%nat ->
  exists visited : list (list string * Route),
    WalkRoutes (readOnly g) fuel s depth st = Some (s, visitAll g (map snd visited) st)
    /\ NoDup (map fst visited)
    /\ (forall p r, In (p, r) visited
                    <-> p <> [] /\ (depth = -1 \/ Z.of_nat (length p) <= depth)
                        /\ resolve p (root s) = Some r)
    /\ (depth = 1 -> map snd visited = map snd (Children (root s))).
Proof.
  intros Hwf Hdepth Hfuel.
  set (n := if depth =? -1 then height (root s) else Z.to_nat depth).
  exists (below n (root s)). split_and!.
  - unfold WalkRoutes. rewrite (walkRoute_readOnly g fuel (root s) depth 0 n st); [by destruct s|done|].
    subst n. destruct (Z.eqb_spec depth (-1)) as [->|Hd].
    + left. done.
    + right. lia.
  - by apply NoDup_below.
  - intros p r. rewrite (@In_below n (root s) p r Hwf). subst n.
    destruct (Z.eqb_spec depth (-1)) as [->|Hd].
    + split; [intros (? & ? & ?); eauto|].
      intros (? & _ & Hr). split; [done|]. split; [|done]. by apply resolve_height in Hr.
    + split.
      * intros (? & ? & ?). split; [done|]. split; [right; lia|done].
      * intros (? & [?|?] & ?); [done|]. split; [done|]. split; [lia|done].
  - intros ->. subst n. simpl.
    induction (Children (root s)) as [|[k c] cs IH]; simpl; [done|]. by rewrite IH.
Qed.

Definition site3 : Site :=
  registerPage (pageAt "a/b/c" 2) (registerPage (pageAt "x" 1) (registerPage (pageAt "a/d" 0) newSite)).

Lemma WalkRoutes_visits_each_route_once_witness :
  exists visited : list (list string * Route),
    WalkRoutes (readOnly (fun r n => (n + length (Pages r))%nat)) 4%nat site3 1 0%nat
    = Some (site3, visitAll (fun r n => (n + length (Pages r))%nat) (map snd visited) 0%nat)
    /\ NoDup (map fst visited)
    /\ (forall p r, In (p, r) visited
                    <-> p <> [] /\ (1 = -1 \/ Z.of_nat (length p) <= 1)
                        /\ resolve p (root site3) = Some r)
    /\ (1 = 1 -> map snd visited = map snd (Children (root site3))).
Proof.
  apply (WalkRoutes_visits_each_route_once (fun r n => (n + length (Pages r))%nat) site3 1 4%nat 0%nat).
  - unfold site3. do 3 apply wf_registerPage. apply wf_newSite.
  - lia.
  - vm_compute. lia.
Defined.

(** The walks of a site of five routes: all of them at depth -1, none at
    depth 0, the two children of the root at depth 1. *)
Example WalkRoutes_site3 :
  let paths depth :=
    snd <$> WalkRoutes (fun r st => (r, st ++ [Path ∘ ap_Page <$> Pages r])) 4%nat site3 depth [] in
  paths (-1) = Some [[]; ["a/d"]; []; ["a/b/c"]; ["x"]]
  /\ paths 0 = Some []
  /\ paths 1 = Some [[]; ["x"]]
  /\ paths 2 = Some [[]; ["a/d"]; []; ["x"]].
Proof. vm_compute. repeat split. Qed.

End SiteTreeFacts.

(** ** The builder *)

Module BuilderFacts.
Import model GoStrings Builder.

(** *** Insertion sort is a sorter *)

Section InsertionSort.
Context {A : Type} (less : A -> A -> bool).

Lemma insertBack_perm x front : insertBack less x front ≡ₚ x :: front.
Proof.
  induction front as [|y front IH]; simpl; [done|].
  destruct (less x y); [|done]. rewrite IH. apply Permutation_swap.
Qed.

Lemma fold_insertBack_perm l : forall front,
  fold_left (fun front x => insertBack less x front) l front ≡ₚ l ++ front.
Proof.
  induction l as [|x l IH]; intros front; simpl; [done|].
  rewrite IH, insertBack_perm. by rewrite Permutation_middle.
Qed.

Lemma insertionSort_perm l : insertionSort less l ≡ₚ l.
Proof.
  unfold insertionSort. rewrite reverse_Permutation, fold_insertBack_perm.
  by rewrite app_nil_r.
Qed.

Hypothesis Hless : strict_weak less.

(** The sorted part, last element first: no element is [less] than one
    that follows it there. *)
Lemma insertBack_sorted x front :
  StronglySorted (fun u v => less u v = false) front ->
  StronglySorted (fun u v => less u v = false) (insertBack less x front).
Proof.
  induction 1 as [|y front Hs IH Hy]; simpl; [repeat constructor|].
  destruct (less x y) eqn:E.
  - constructor; [done|]. rewrite insertBack_perm. constructor; [|done].
    by apply (sw_asym Hless).
  - constructor; [by constructor|]. constructor; [done|].
    eapply Forall_impl; [exact Hy|]. intros z Hz. simpl in Hz.
    by apply (sw_negtrans Hless x y z).
Qed.

Lemma fold_insertBack_sorted l : forall front,
  StronglySorted (fun u v => less u v = false) front ->
  StronglySorted (fun u v => less u v = false)
    (fold_left (fun front x => insertBack less x front) l front).
Proof.
  induction l as [|x l IH]; intros front Hs; simpl; [done|].
  by apply IH, insertBack_sorted.
Qed.

Lemma reverse_sorted (l : list A) :
  StronglySorted (fun u v => less u v = false) l -> sorted_by less (reverse l).
Proof.
  unfold sorted_by. induction 1 as [|x l Hs IH Hx]; [constructor|].
  rewrite reverse_cons. apply StronglySorted_app. split_and!; [|done|repeat constructor].
  intros u v Hu Hv. apply list_elem_of_singleton in Hv. subst v.
  rewrite elem_of_reverse in Hu. rewrite Forall_forall in Hx. by apply Hx.
Qed.

Lemma insertionSort_sorted l : sorted_by less (insertionSort less l).
Proof. apply reverse_sorted, fold_insertBack_sorted. constructor. Qed.

End InsertionSort.

#[global] Instance insertionSorter : Sorter :=
  {| sort_Slice := fun A less l => insertionSort less l;
     sort_Slice_perm := fun A less l => insertionSort_perm less l;
     sort_Slice_sorted := fun A less l H => insertionSort_sorted less H l |}.

(** *** Routes and walks *)

Definition mkState (rs : list (string * RouteInfo)) (σ : list Article) : Build :=
  {| site := {| routes := rs |}; store := σ |}.

Lemma mkState_eta b : mkState (routes (site b)) (store b) = b.
Proof. by destruct b as [[rs] σ]. Qed.

Lemma getRoute_middle pre r ri post σ n :
  n = length pre -> getRoute n (mkState (pre ++ (r, ri) :: post) σ) = Ok ri.
Proof. intros ->. unfold getRoute. simpl. by rewrite list_lookup_middle. Qed.

Lemma setRoute_middle pre r ri ri' post σ n :
  n = length pre ->
  setRoute n ri' (mkState (pre ++ (r, ri) :: post) σ) = mkState (pre ++ (r, ri') :: post) σ.
Proof.
  intros ->. unfold setRoute, mkState. simpl. f_equal. f_equal.
  rewrite alter_app_r_alt by lia. by rewrite Nat.sub_diag.
Qed.

Definition mapRoutes (f : string -> RouteInfo -> RouteInfo) (rs : list (string * RouteInfo))
    : list (string * RouteInfo) :=
  map (fun kv => (fst kv, f (fst kv) (snd kv))) rs.

Lemma walkLoop_pointwise walkFn f (R : list (string * RouteInfo)) σ :
  (forall done r ri todo, R = done ++ (r, ri) :: todo ->
     walkFn r (length done) (mkState (mapRoutes f done ++ (r, ri) :: todo) σ)
     = Ok (mkState (mapRoutes f done ++ (r, f r ri) :: todo) σ)) ->
  forall todo done, R = done ++ todo ->
    walkLoop walkFn (imap (fun i kv => (fst kv, length done + i)%nat) todo)
      (mkState (mapRoutes f done ++ todo) σ)
    = Ok (mkState (mapRoutes f R) σ).
Proof.
  intros Hfn. induction todo as [|[r ri] todo IH]; intros done HR.
  { simpl. rewrite !app_nil_r in *. by subst. }
  rewrite imap_cons. simpl walkLoop. rewrite Nat.add_0_r.
  rewrite (Hfn done r ri todo HR). simpl.
  specialize (IH (done ++ [(r, ri)])).
  replace (mapRoutes f (done ++ [(r, ri)]) ++ todo)
    with (mapRoutes f done ++ (r, f r ri) :: todo) in IH
    by (unfold mapRoutes; rewrite map_app, <- app_assoc; done).
  rewrite <- IH by (by rewrite <- app_assoc).
  f_equal. apply imap_ext. intros i kv _. simpl. rewrite length_app. simpl.
  f_equal. lia.
Qed.

(** A walk whose callback changes the route it is handed alone, and the
    same way whatever the routes before it have become, changes every
    route of the site that way. *)
Lemma WalkRoutes_pointwise walkFn f (R : list (string * RouteInfo)) σ :
  (forall done r ri todo, R = done ++ (r, ri) :: todo ->
     walkFn r (length done) (mkState (mapRoutes f done ++ (r, ri) :: todo) σ)
     = Ok (mkState (mapRoutes f done ++ (r, f r ri) :: todo) σ)) ->
  WalkRoutes walkFn (mkState R σ) = Ok (mkState (mapRoutes f R) σ).
Proof.
  intros Hfn. unfold WalkRoutes. simpl.
  apply (walkLoop_pointwise walkFn f R σ Hfn R []). done.
Qed.

(** Every page of every route points to an article of the store. *)
Definition pagesReadable (b : Build) : bool :=
  forallb (fun kv => forallb (readable (store b)) (Pages (snd kv))) (routes (site b)).

Lemma pagesReadable_In b r ri :
  pagesReadable b = true -> In (r, ri) (routes (site b)) ->
  forallb (readable (store b)) (Pages ri) = true.
Proof.
  unfold pagesReadable. rewrite forallb_forall. intros H Hin. apply (H (r, ri) Hin).
Qed.

(** *** [buildListPages] *)

Section ListPages.
Context {sorter : Sorter}.

Definition hidden (σ : list Article) (p : ArticlePage) : bool :=
  match σ !! ap_Article p with
  | Some a => Hide a
  | None => false
  end.

(** What the loop stores for a page: nothing for a hidden one, so that the
    entry stays nil. *)
Definition listEntry (σ : list Article) (p : ArticlePage) : option ArticlePage :=
  if hidden σ p then None else Some p.

Lemma fillArticlePages_entries σ pages :
  forall pre,
    forallb (readable σ) pages = true ->
    fillArticlePages σ (length pre) pages (pre ++ replicate (length pages) None)
    = Ok (pre ++ map (listEntry σ) pages).
Proof.
  induction pages as [|p pages IH]; intros pre Hread; [done|].
  simpl in Hread. apply andb_true_iff in Hread as [Hp Hread].
  simpl. unfold readable in Hp. unfold deref, listEntry, hidden.
  destruct (σ !! ap_Article p) as [a|]; [|done]. simpl.
  assert (Hlen : length (pre ++ [if Hide a then None else Some p]) = S (length pre))
    by (rewrite length_app; simpl; lia).
  pose proof (IH (pre ++ [if Hide a then None else Some p]) Hread) as IH'.
  rewrite Hlen, <- !app_assoc in IH'. simpl in IH'.
  destruct (Hide a); [exact IH'|].
  rewrite insert_app_r_alt by lia. rewrite Nat.sub_diag. exact IH'.
Qed.

Lemma readable_perm σ (l l' : list ArticlePage) :
  l ≡ₚ l' -> forallb (readable σ) l = true -> forallb (readable σ) l' = true.
Proof.
  intros Hp. rewrite !forallb_forall. intros H x Hx. apply H.
  apply list_elem_of_In. rewrite Hp. by apply list_elem_of_In.
Qed.

(** The route after the callback of [buildListPages]. *)
Definition withListPage (σ : list Article) (sortPages : bool) (r : string) (ri : RouteInfo)
    : RouteInfo :=
  match IndexPage ri with
  | Some _ => ri
  | None =>
      let pages := if sortPages then sort_Slice (dateAfter σ) (Pages ri) else Pages ri in
      {| Pages := pages;
         IndexPage := None;
         ListPage := Some {| lp_Page := {| Path := r |};
                             lp_ArticlePages := map (listEntry σ) pages |} |}
  end.

Lemma buildListPagesFn_route sortPages pre r ri post σ n :
  n = length pre ->
  forallb (readable σ) (Pages ri) = true ->
  buildListPagesFn sortPages r n (mkState (pre ++ (r, ri) :: post) σ)
  = Ok (mkState (pre ++ (r, withListPage σ sortPages r ri) :: post) σ).
Proof.
  intros Hn Hread. unfold buildListPagesFn.
  rewrite (getRoute_middle pre r ri post σ n Hn). simpl.
  unfold withListPage. destruct (IndexPage ri) eqn:Eidx; [done|].
  set (pages := if sortPages then sort_Slice (dateAfter σ) (Pages ri) else Pages ri).
  assert (Hperm : pages ≡ₚ Pages ri).
  { subst pages. destruct sortPages; [apply sort_Slice_perm|done]. }
  assert (Hsort : (if sortPages then sortPagesByDate σ (Pages ri) else Ok (Pages ri)) = Ok pages).
  { subst pages. destruct sortPages; [|done]. unfold sortPagesByDate.
    by rewrite Hread, orb_true_r. }
  rewrite Hsort. simpl.
  rewrite <- (Permutation_length Hperm).
  pose proof (fillArticlePages_entries σ pages [] (readable_perm σ _ _ (symmetry Hperm) Hread)) as Hfill.
  simpl in Hfill. rewrite Hfill. simpl.
  by rewrite (setRoute_middle pre r ri _ post σ n Hn).
Qed.

(** [buildListPages] on a site whose pages have articles: every route is
    given its list page, and the store is as it was. *)
Lemma buildListPages_routes sortPages (b : Build) :
  pagesReadable b = true ->
  buildListPages sortPages b
  = Ok (mkState (mapRoutes (withListPage (store b) sortPages) (routes (site b))) (store b)).
Proof.
  intros Hread. unfold buildListPages. rewrite <- (mkState_eta b) at 1.
  apply WalkRoutes_pointwise. intros done r ri todo HR.
  apply buildListPagesFn_route.
  - unfold mapRoutes. by rewrite length_map.
  - apply (pagesReadable_In b r ri Hread). rewrite HR. apply in_elt.
Qed.
Lemma dateAfter_strict_weak σ : strict_weak (dateAfter σ).
Proof.
  split; unfold dateAfter.
  - intros x y H. apply Z.ltb_lt in H. apply Z.ltb_ge. lia.
  - intros x y z H1 H2. apply Z.ltb_ge in H1, H2. apply Z.ltb_ge. lia.
Qed.

Lemma sorted_by_dateAfter σ l :
  sorted_by (dateAfter σ) l ->
  StronglySorted (fun p q => dateOf σ q <= dateOf σ p) l.
Proof.
  unfold sorted_by. induction 1 as [|x l Hs IH Hx]; constructor; [done|].
  eapply Forall_impl; [exact Hx|]. intros y Hy. simpl in Hy.
  unfold dateAfter in Hy. by apply Z.ltb_ge in Hy.
Qed.

Lemma listEntry_visible σ pages :
  omap id (map (listEntry σ) pages) = filter (fun p => hidden σ p = false) pages.
Proof.
  induction pages as [|p pages IH]; [done|].
  rewrite filter_cons, <- IH.
  destruct (decide (hidden σ p = false)) as [E|E].
  - simpl. unfold listEntry at 1. by rewrite E.
  - apply not_false_is_true in E. simpl. unfold listEntry at 1. by rewrite E.
Qed.

Lemma lookup_mapRoutes f rs i r ri :
  rs !! i = Some (r, ri) -> mapRoutes f rs !! i = Some (r, f r ri).
Proof. intros H. unfold mapRoutes. rewrite list_lookup_fmap, H. done. Qed.

(** C8, amended: with sorting, and where every page has its article,
    [buildListPages] sorts the pages of every route that has no index
    page where they are, in the route itself: the
    pages of the route afterwards are the pages it had, with no page
    before one of a later date. The list page of the route has the path
    of the route, and its entries that are pages are the visible pages of
    the route in that order. *)
Theorem buildListPages_sorts_the_route_pages (b : Build) :
  pagesReadable b = true ->
  exists b',
    buildListPages true b = Ok b'
    /\ store b' = store b
    /\ length (routes (site b')) = length (routes (site b))
    /\ forall i r ri,
         routes (site b) !! i = Some (r, ri) -> IndexPage ri = None ->
         exists ri' lp,
           routes (site b') !! i = Some (r, ri')
           /\ Pages ri' ≡ₚ Pages ri
           /\ StronglySorted (fun p q => dateOf (store b) q <= dateOf (store b) p) (Pages ri')
           /\ ListPage ri' = Some lp
           /\ Path (lp_Page lp) = r
           /\ omap id (lp_ArticlePages lp)
              = filter (fun p => hidden (store b) p = false) (Pages ri').
Proof.
  intros Hread. eexists. split; [by apply buildListPages_routes|].
  split; [done|]. split; [unfold mapRoutes; simpl; by rewrite length_map|].
  intros i r ri Hi Hidx. simpl.
  rewrite (lookup_mapRoutes _ _ _ _ _ Hi). unfold withListPage. rewrite Hidx.
  eexists _, _. split; [reflexivity|]. simpl. split_and!.
  - apply sort_Slice_perm.
  - apply sorted_by_dateAfter, sort_Slice_sorted, dateAfter_strict_weak.
  - reflexivity.
  - reflexivity.
  - apply listEntry_visible.
Qed.

End ListPages.

Definition article (id : string) (date : Z) (hide : bool) (related : list string) : Article :=
  {| ID := id; Date := date; Hide := hide; Related := related; RelatedPages := [] |}.

Definition page (path : string) (a : addr) : ArticlePage :=
  {| ap_Page := {| Path := path |}; ap_Article := a |}.
Arguments page path%_string a%_nat.

Definition route (pages : list ArticlePage) : RouteInfo :=
  {| Pages := pages; IndexPage := None; ListPage := None |}.

Definition indexRoute (path : string) (a : addr) (pages : list ArticlePage) : RouteInfo :=
  {| Pages := pages;
     IndexPage := Some {| ip_Page := {| Path := path |}; ip_Article := a; ip_ArticlePages := [] |};
     ListPage := None |}.
Arguments indexRoute path%_string a%_nat pages%_list.

(** Two visible articles of one route, the earlier one registered first. *)
Definition twoVisible : Build :=
  mkState [("blog", route [page "blog" 0; page "blog" 1])]
          [article "january" 20230101 false []; article "march" 20230301 false []].

(** A hidden article of January and a visible one of March, in this
    order and in the other. *)
Definition hiddenFirst : Build :=
  mkState [("blog", route [page "blog" 0; page "blog" 1])]
          [article "january" 20230101 true []; article "march" 20230301 false []].

Definition hiddenLast : Build :=
  mkState [("blog", route [page "blog" 1; page "blog" 0])]
          [article "january" 20230101 true []; article "march" 20230301 false []].

(** The entries of the list page of route [i] after a pass. *)
Definition listPageEntries (i : nat) (res : result Build) : option (list (option ArticlePage)) :=
  match res with
  | Ok b =>
      match routes (site b) !! i with
      | Some (_, ri) => lp_ArticlePages <$> ListPage ri
      | None => None
      end
  | Panic => None
  end.

Definition routePages (i : nat) (res : result Build) : option (list ArticlePage) :=
  match res with
  | Ok b =>
      match routes (site b) !! i with
      | Some (_, ri) => Some (Pages ri)
      | None => None
      end
  | Panic => None
  end.

Lemma buildListPages_sorts_the_route_pages_witness :
  exists b',
    buildListPages true twoVisible = Ok b'
    /\ store b' = store twoVisible
    /\ length (routes (site b')) = length (routes (site twoVisible))
    /\ forall i r ri,
         routes (site twoVisible) !! i = Some (r, ri) -> IndexPage ri = None ->
         exists ri' lp,
           routes (site b') !! i = Some (r, ri')
           /\ Pages ri' ≡ₚ Pages ri
           /\ StronglySorted (fun p q => dateOf (store twoVisible) q <= dateOf (store twoVisible) p)
                (Pages ri')
           /\ ListPage ri' = Some lp
           /\ Path (lp_Page lp) = r
           /\ omap id (lp_ArticlePages lp)
              = filter (fun p => hidden (store twoVisible) p = false) (Pages ri').
Proof.
  apply (buildListPages_sorts_the_route_pages twoVisible). reflexivity.
Defined.

(** A sorter that keeps the promise of [sort.Slice] and does not keep
    pages of one date in their order: insertion sort from the last
    element on. *)
Definition backwardSorter : Sorter :=
  {| sort_Slice := fun A less l => insertionSort less (reverse l);
     sort_Slice_perm := fun A less l =>
       transitivity (insertionSort_perm less (reverse l)) (reverse_Permutation l);
     sort_Slice_sorted := fun A less l H => insertionSort_sorted less H (reverse l) |}.

(** Two visible articles of one date. *)
Definition sameDate : Build :=
  mkState [("blog", route [page "blog" 0; page "blog" 1])]
          [article "first" 20230101 false []; article "second" 20230101 false []].

Example buildListPages_same_date :
  routePages 0 (buildListPages (sorter := insertionSorter) true sameDate)
  = Some [page "blog" 0; page "blog" 1]
  /\ routePages 0 (buildListPages (sorter := backwardSorter) true sameDate)
     = Some [page "blog" 1; page "blog" 0].
Proof. vm_compute. split; reflexivity. Qed.

(** C8 as the specification states it fails: the order is not that of a
    copy. The pages of the route itself are in another order after the
    pass. *)
Lemma buildListPages_reorders_the_route :
  ~ (routePages 0 (buildListPages true twoVisible) = Some [page "blog" 0; page "blog" 1]
     /\ listPageEntries 0 (buildListPages true twoVisible)
        = Some [Some (page "blog" 1); Some (page "blog" 0)]).
Proof. vm_compute. intros [H _]. discriminate H. Qed.

(** C1: the list page of a route with a hidden and a visible article has
    two entries, one of them nil, whatever the order of the pages and
    with or without sorting; the specification has one entry, the visible
    page. *)
Theorem buildListPages_keeps_an_entry_for_a_hidden_page :
  listPageEntries 0 (buildListPages false hiddenFirst) = Some [None; Some (page "blog" 1)]
  /\ listPageEntries 0 (buildListPages true hiddenFirst) = Some [Some (page "blog" 1); None]
  /\ listPageEntries 0 (buildListPages false hiddenLast) = Some [Some (page "blog" 1); None]
  /\ listPageEntries 0 (buildListPages true hiddenLast) = Some [Some (page "blog" 1); None].
Proof. vm_compute. repeat split. Qed.

(** *** [addArticlePagesToIndexPages] *)

(** The route with [acc] appended to the pages of its index page, if it
    has one. *)
Definition appendAgg (acc : list (option ArticlePage)) (ri : RouteInfo) : RouteInfo :=
  {| Pages := Pages ri;
     IndexPage := (fun ip => {| ip_Page := ip_Page ip;
                                ip_Article := ip_Article ip;
                                ip_ArticlePages := ip_ArticlePages ip ++ acc |}) <$> IndexPage ri;
     ListPage := ListPage ri |}.

Definition visibleEntries (σ : list Article) (pages : list ArticlePage)
    : list (option ArticlePage) :=
  Some <$> filter (fun p => hidden σ p = false) pages.

Definition allPages (R : list (string * RouteInfo)) : list ArticlePage :=
  flat_map (fun kv => Pages (snd kv)) R.

Definition pagesOf (R : list (string * RouteInfo)) (j : nat) : list ArticlePage :=
  match R !! j with
  | Some kv => Pages (snd kv)
  | None => []
  end.

Lemma appendAgg_nil ri : appendAgg [] ri = ri.
Proof.
  destruct ri as [ps [[pg a aps]|] lp]; unfold appendAgg; simpl; [|done].
  by rewrite app_nil_r.
Qed.

Lemma appendAgg_no_index acc ri : IndexPage ri = None -> appendAgg acc ri = ri.
Proof. destruct ri as [ps ip lp]. simpl. intros ->. done. Qed.

Lemma visibleEntries_app σ l1 l2 :
  visibleEntries σ (l1 ++ l2) = visibleEntries σ l1 ++ visibleEntries σ l2.
Proof. unfold visibleEntries. by rewrite filter_app, fmap_app. Qed.

Lemma lookup_middle_ne {X} (pre post : list X) (x y : X) (j : nat) :
  j <> length pre -> (pre ++ x :: post) !! j = (pre ++ y :: post) !! j.
Proof.
  intros Hj. destruct (decide (j < length pre)%nat) as [Hlt|Hge].
  - by rewrite !lookup_app_l.
  - rewrite !lookup_app_r by lia.
    destruct (j - length pre)%nat as [|k] eqn:E; [lia|done].
Qed.

Section IndexPages.
Variables (pre post : list (string * RouteInfo)) (r : string) (ri : RouteInfo).
Variable σ : list Article.

(** The site while the inner walk for the route [ri] runs. *)
Definition during (acc : list (option ArticlePage)) : Build :=
  mkState (pre ++ (r, appendAgg acc ri) :: post) σ.

Lemma getRoute_during acc j :
  is_Some ((pre ++ (r, ri) :: post) !! j) ->
  exists rj, getRoute j (during acc) = Ok rj
             /\ Pages rj = pagesOf (pre ++ (r, ri) :: post) j.
Proof.
  intros [kv Hkv]. destruct (decide (j = length pre)) as [->|Hj].
  - unfold during. rewrite (getRoute_middle pre r _ post σ (length pre) eq_refl).
    eexists. split; [done|]. unfold pagesOf. by rewrite list_lookup_middle.
  - unfold during, getRoute, pagesOf. simpl.
    rewrite (lookup_middle_ne pre post (r, appendAgg acc ri) (r, ri) j Hj), Hkv.
    eauto.
Qed.

Hypothesis Hindex : is_Some (IndexPage ri).

Lemma appendToIndexPage_during acc p :
  appendToIndexPage (length pre) p (during acc) = Ok (during (acc ++ [Some p])).
Proof.
  unfold appendToIndexPage, during.
  rewrite (getRoute_middle pre r _ post σ (length pre) eq_refl). simpl.
  destruct Hindex as [ip Hip]. rewrite Hip. simpl.
  rewrite (setRoute_middle pre r _ _ post σ (length pre) eq_refl).
  unfold appendAgg. rewrite Hip. simpl. by rewrite <- app_assoc.
Qed.

Lemma appendVisible_during pages : forall acc,
  forallb (readable σ) pages = true ->
  appendVisible (length pre) pages (during acc)
  = Ok (during (acc ++ visibleEntries σ pages)).
Proof.
  induction pages as [|p pages IH]; intros acc Hread.
  { unfold visibleEntries. simpl. by rewrite app_nil_r. }
  simpl in Hread. apply andb_true_iff in Hread as [Hp Hread].
  simpl. unfold readable in Hp. unfold deref.
  change (store (during acc)) with σ.
  unfold visibleEntries. rewrite filter_cons.
  destruct (σ !! ap_Article p) as [a|] eqn:Ea; [|done]. simpl.
  assert (Hh : hidden σ p = Hide a) by (unfold hidden; by rewrite Ea).
  destruct (Hide a) eqn:Eh.
  - rewrite decide_False by (rewrite Hh; done). by apply IH.
  - rewrite decide_True by done. rewrite appendToIndexPage_during. simpl.
    rewrite (IH _ Hread). unfold visibleEntries.
    by rewrite <- app_assoc.
Qed.

Lemma inner_walkLoop (todo : list (string * nat)) : forall acc,
  Forall (fun kj => is_Some ((pre ++ (r, ri) :: post) !! snd kj)) todo ->
  forallb (readable σ) (flat_map (fun kj => pagesOf (pre ++ (r, ri) :: post) (snd kj)) todo) = true ->
  walkLoop (fun r2 i2 b => ri2 ← getRoute i2 b; appendVisible (length pre) (Pages ri2) b)
    todo (during acc)
  = Ok (during (acc ++ visibleEntries σ
                  (flat_map (fun kj => pagesOf (pre ++ (r, ri) :: post) (snd kj)) todo))).
Proof.
  induction todo as [|[k j] todo IH]; intros acc Hall Hread.
  { simpl. unfold visibleEntries. simpl. by rewrite app_nil_r. }
  apply Forall_cons in Hall as [Hj Hall]. simpl in Hj, Hread.
  rewrite forallb_app in Hread. apply andb_true_iff in Hread as [Hread1 Hread2].
  simpl. destruct (getRoute_during acc j Hj) as (rj & -> & Hpages). simpl.
  rewrite Hpages, (appendVisible_during _ _ Hread1). simpl.
  rewrite (IH _ Hall Hread2), visibleEntries_app. by rewrite <- app_assoc.
Qed.

End IndexPages.

Lemma flat_map_indices (R : list (string * RouteInfo)) : forall l seen,
  R = seen ++ l ->
  flat_map (fun kj : string * nat => pagesOf R (snd kj))
           (imap (fun j kv => (fst kv, length seen + j)%nat) l)
  = allPages l.
Proof.
  induction l as [|kv l IH]; intros seen HR; [done|].
  rewrite imap_cons. simpl. rewrite Nat.add_0_r. f_equal.
  - unfold pagesOf. rewrite HR. by rewrite list_lookup_middle.
  - rewrite <- (IH (seen ++ [kv])) by (by rewrite <- app_assoc).
    f_equal. apply imap_ext. intros j x _. simpl. rewrite length_app. simpl. f_equal. lia.
Qed.

Lemma Forall_indices (R : list (string * RouteInfo)) :
  Forall (fun kj : string * nat => is_Some (R !! snd kj)) (imap (fun j kv => (fst kv, j)) R).
Proof.
  apply Forall_forall. intros [k j] Hin. apply elem_of_lookup_imap in Hin as (i & kv & [= -> ->] & Hkv).
  simpl. eauto.
Qed.

Lemma forallb_allPages σ R :
  forallb (fun kv => forallb (readable σ) (Pages (snd kv))) R = true ->
  forallb (readable σ) (allPages R) = true.
Proof.
  induction R as [|kv R IH]; [done|]. simpl. rewrite forallb_app.
  intros H. apply andb_true_iff in H as [H1 H2]. by rewrite H1, IH.
Qed.

(** The callback of [addArticlePagesToIndexPages] at a route: the visible
    pages of all routes are appended to its index page, if it has one. *)
Lemma addArticlePagesFn_route pre r ri post σ n :
  n = length pre ->
  forallb (readable σ) (allPages (pre ++ (r, ri) :: post)) = true ->
  addArticlePagesFn r n (mkState (pre ++ (r, ri) :: post) σ)
  = Ok (mkState (pre ++ (r, appendAgg (visibleEntries σ (allPages (pre ++ (r, ri) :: post))) ri)
                      :: post) σ).
Proof.
  intros -> Hread. unfold addArticlePagesFn.
  rewrite (getRoute_middle pre r ri post σ (length pre) eq_refl). simpl.
  destruct (IndexPage ri) as [ip|] eqn:Eidx.
  2:{ by rewrite appendAgg_no_index. }
  unfold WalkRoutes. simpl.
  pose proof (inner_walkLoop pre post r ri σ (ltac:(rewrite Eidx; eauto))
                (imap (fun j kv => (fst kv, j)) (pre ++ (r, ri) :: post)) []
                (Forall_indices _)) as Hwalk.
  pose proof (flat_map_indices (pre ++ (r, ri) :: post) (pre ++ (r, ri) :: post) [] eq_refl) as Hflat.
  simpl in Hflat. rewrite Hflat in Hwalk. specialize (Hwalk Hread).
  unfold during in Hwalk. rewrite appendAgg_nil in Hwalk. simpl in Hwalk.
  exact Hwalk.
Qed.

Lemma allPages_mapRoutes f R :
  (forall r ri, Pages (f r ri) = Pages ri) -> allPages (mapRoutes f R) = allPages R.
Proof.
  intros Hf. induction R as [|[r ri] R IH]; [done|].
  unfold allPages in *. simpl. by rewrite Hf, IH.
Qed.

Lemma allPages_app R1 R2 : allPages (R1 ++ R2) = allPages R1 ++ allPages R2.
Proof. unfold allPages. by rewrite flat_map_app. Qed.

(** [addArticlePagesToIndexPages] on a site whose pages have articles. *)
Lemma addArticlePagesToIndexPages_routes (b : Build) :
  pagesReadable b = true ->
  addArticlePagesToIndexPages b
  = Ok (mkState (mapRoutes (fun _ ri => appendAgg (visibleEntries (store b)
                                                     (allPages (routes (site b)))) ri)
                   (routes (site b))) (store b)).
Proof.
  intros Hread. unfold addArticlePagesToIndexPages. rewrite <- (mkState_eta b) at 1.
  apply WalkRoutes_pointwise. intros done r ri todo HR.
  assert (Hall : allPages (mapRoutes (fun _ ri => appendAgg (visibleEntries (store b)
                                        (allPages (routes (site b)))) ri) done
                           ++ (r, ri) :: todo)
                 = allPages (routes (site b))).
  { rewrite HR, !allPages_app. f_equal. by apply allPages_mapRoutes. }
  rewrite addArticlePagesFn_route.
  - by rewrite Hall.
  - unfold mapRoutes. by rewrite length_map.
  - rewrite Hall. by apply forallb_allPages.
Qed.

(** C7: where every page has its article, [addArticlePagesToIndexPages]
    returns with the store and the routes as they were but for the index
    pages: the index page of every route that has one holds the pages it
    held, followed by the visible pages of all routes of the site, those
    of the routes outside its own as well, and by no hidden page. *)
Theorem addArticlePagesToIndexPages_aggregates_the_site (b : Build) :
  pagesReadable b = true ->
  exists b',
    addArticlePagesToIndexPages b = Ok b'
    /\ store b' = store b
    /\ length (routes (site b')) = length (routes (site b))
    /\ forall i r ri,
         routes (site b) !! i = Some (r, ri) ->
         exists ri',
           routes (site b') !! i = Some (r, ri')
           /\ Pages ri' = Pages ri
           /\ ListPage ri' = ListPage ri
           /\ match IndexPage ri with
              | None => IndexPage ri' = None
              | Some ip =>
                  exists ip',
                    IndexPage ri' = Some ip'
                    /\ ip_Page ip' = ip_Page ip
                    /\ ip_Article ip' = ip_Article ip
                    /\ ip_ArticlePages ip'
                       = ip_ArticlePages ip
                         ++ (Some <$> filter (fun p => hidden (store b) p = false)
                                        (flat_map (fun kv => Pages (snd kv)) (routes (site b))))
              end.
Proof.
  intros Hread. eexists. split; [by apply addArticlePagesToIndexPages_routes|].
  split; [done|]. split; [unfold mapRoutes; simpl; by rewrite length_map|].
  intros i r ri Hi. simpl. rewrite (lookup_mapRoutes _ _ _ _ _ Hi).
  eexists. split; [reflexivity|]. split; [done|]. split; [done|].
  unfold appendAgg. simpl. destruct (IndexPage ri) as [ip|]; [|done].
  simpl. eexists. split; [reflexivity|]. done.
Qed.

(** Two routes with an index page and three visible articles, and a
    hidden one, under two other routes. *)
Definition twoIndexRoutes : Build :=
  mkState [("a", indexRoute "a" 4 []);
           ("blog", route [page "blog" 0; page "blog" 1]);
           ("b", indexRoute "b" 5 []);
           ("news", route [page "news" 2; page "news" 3])]
          [article "post-1" 20230101 false [];
           article "post-2" 20230201 false [];
           article "post-3" 20230301 false [];
           article "draft" 20230401 true [];
           article "index" 20230101 false [];
           article "index" 20230101 false []].

Lemma addArticlePagesToIndexPages_aggregates_the_site_witness :
  exists b',
    addArticlePagesToIndexPages twoIndexRoutes = Ok b'
    /\ store b' = store twoIndexRoutes
    /\ length (routes (site b')) = length (routes (site twoIndexRoutes))
    /\ forall i r ri,
         routes (site twoIndexRoutes) !! i = Some (r, ri) ->
         exists ri',
           routes (site b') !! i = Some (r, ri')
           /\ Pages ri' = Pages ri
           /\ ListPage ri' = ListPage ri
           /\ match IndexPage ri with
              | None => IndexPage ri' = None
              | Some ip =>
                  exists ip',
                    IndexPage ri' = Some ip'
                    /\ ip_Page ip' = ip_Page ip
                    /\ ip_Article ip' = ip_Article ip
                    /\ ip_ArticlePages ip'
                       = ip_ArticlePages ip
                         ++ (Some <$> filter (fun p => hidden (store twoIndexRoutes) p = false)
                                        (flat_map (fun kv => Pages (snd kv))
                                           (routes (site twoIndexRoutes))))
              end.
Proof.
  apply (addArticlePagesToIndexPages_aggregates_the_site twoIndexRoutes). reflexivity.
Defined.

Definition indexPageEntries (i : nat) (res : result Build) : option (list (option ArticlePage)) :=
  match res with
  | Ok b =>
      match routes (site b) !! i with
      | Some (_, ri) => ip_ArticlePages <$> IndexPage ri
      | None => None
      end
  | Panic => None
  end.

(** The three visible articles are in the index pages of both routes. *)
Example addArticlePagesToIndexPages_two_index_routes :
  indexPageEntries 0 (addArticlePagesToIndexPages twoIndexRoutes)
  = Some [Some (page "blog" 0); Some (page "blog" 1); Some (page "news" 2)]
  /\ indexPageEntries 2 (addArticlePagesToIndexPages twoIndexRoutes)
     = Some [Some (page "blog" 0); Some (page "blog" 1); Some (page "news" 2)].
Proof. vm_compute. split; reflexivity. Qed.

(** *** [buildRelated] *)

Lemma len_String c s : len (String c s) = 1 + len s.
Proof. unfold len. simpl String.length. lia. Qed.

Lemma LastIndex_from_spec s : forall i last,
  (contains_slash s = false /\ LastIndex_from s i last = last)
  \/ (contains_slash s = true /\ i <= LastIndex_from s i last < i + len s).
Proof.
  induction s as [|c s IH]; intros i last; simpl; [by left|].
  rewrite len_String. destruct (Ascii.eqb c slash); simpl.
  - right. split; [done|]. destruct (IH (i + 1) i) as [[_ ->]|[_ H]]; unfold len in *; lia.
  - destruct (IH (i + 1) last) as [[-> ->]|[-> H]]; [by left|right]. split; [done|lia].
Qed.

(** There is no last slash in a string without one, and it lies within a
    string that has one. *)
Lemma LastIndex_no_slash link : contains_slash link = false <-> LastIndex link = -1.
Proof.
  unfold LastIndex. destruct (LastIndex_from_spec link 0 (-1)) as [[H1 H2]|[H1 H2]].
  - by rewrite H1, H2.
  - rewrite H1. split; [done|lia].
Qed.

Lemma LastIndex_slash link : contains_slash link = true -> 0 <= LastIndex link < len link.
Proof.
  unfold LastIndex. destruct (LastIndex_from_spec link 0 (-1)) as [[H1 H2]|[H1 H2]]; [congruence|lia].
Qed.

Lemma length_str_take n s : (n <= String.length s)%nat -> String.length (str_take n s) = n.
Proof.
  revert s. induction n as [|n IH]; intros s Hn; [done|].
  destruct s as [|c s]; simpl in *; [lia|]. rewrite IH; lia.
Qed.

Section Related.
Variable error : Type.
Variable resolvePath : Build -> string -> string -> option ArticlePage * option error.

Definition appendRelated (entry : option ArticlePage) (a : Article) : Article :=
  {| ID := ID a; Date := Date a; Hide := Hide a; Related := Related a;
     RelatedPages := RelatedPages a ++ [entry] |}.

(** The two parts of a link. *)
Definition linkPath (link : string) : string := str_take (Z.to_nat (LastIndex link)) link.
Definition linkID (link : string) : string := str_drop (Z.to_nat (LastIndex link + 1)) link.

(** A link without a slash: the bound of the slice is -1. *)
Lemma relateLink_no_slash p link b :
  contains_slash link = false -> relateLink resolvePath p link b = Panic.
Proof.
  intros H. apply LastIndex_no_slash in H. unfold relateLink. rewrite H. done.
Qed.

(** A link with a slash: whatever page pointer the resolution returns,
    nil or not, is appended. *)
Lemma relateLink_slash p link b a :
  contains_slash link = true ->
  store b !! ap_Article p = Some a ->
  relateLink resolvePath p link b
  = Ok (setArticle (ap_Article p)
          (appendRelated (fst (resolvePath b (linkPath link) (linkID link))) a) b).
Proof.
  intros Hs Ha. apply LastIndex_slash in Hs. unfold relateLink, slice_to.
  assert ((0 <=? LastIndex link) && (LastIndex link <=? len link) = true) as ->.
  { apply andb_true_iff. split; apply Z.leb_le; lia. }
  simpl. fold (linkPath link).
  assert (Hlen : len (linkPath link) = LastIndex link).
  { unfold len, linkPath. rewrite length_str_take; unfold len in *; lia. }
  unfold slice_from. rewrite Hlen.
  assert ((0 <=? LastIndex link + 1) && (LastIndex link + 1 <=? len link) = true) as ->.
  { apply andb_true_iff. split; apply Z.leb_le; lia. }
  simpl. fold (linkID link).
  destruct (resolvePath b (linkPath link) (linkID link)) as [pg e]. simpl.
  unfold deref. by rewrite Ha.
Qed.

Lemma Related_insert (σ : list Article) i a a' :
  σ !! i = Some a -> Related a' = Related a ->
  map Related (<[i := a']> σ) = map Related σ.
Proof.
  intros Hi Hr. change (map Related) with (fmap (M := list) Related).
  rewrite list_fmap_insert, Hr. apply list_insert_id. by rewrite list_lookup_fmap, Hi.
Qed.

Lemma lookup_same_links (σ σ' : list Article) i :
  map Related σ = map Related σ' -> Related <$> σ !! i = Related <$> σ' !! i.
Proof.
  intros H. change (map Related) with (fmap (M := list) Related) in H.
  by rewrite <- !list_lookup_fmap, H.
Qed.

(** The page has an article, and every link of it has a slash. *)
Definition relatable (σ : list Article) (p : ArticlePage) : bool :=
  match σ !! ap_Article p with
  | Some a => forallb contains_slash (Related a)
  | None => false
  end.

Lemma relatable_same_links σ σ' p :
  map Related σ = map Related σ' -> relatable σ p = relatable σ' p.
Proof.
  intros H. apply (lookup_same_links _ _ (ap_Article p)) in H. unfold relatable.
  destruct (σ !! ap_Article p), (σ' !! ap_Article p); simplify_eq/=; congruence.
Qed.

(** The loop over the links returns when all of them have a slash, and
    panics otherwise. It changes the related pages of the article alone. *)
Lemma relateLinks_spec p links : forall b a,
  store b !! ap_Article p = Some a ->
  match relateLinks resolvePath p links b with
  | Ok b' => forallb contains_slash links = true
             /\ site b' = site b
             /\ map Related (store b') = map Related (store b)
             /\ exists a', store b' !! ap_Article p = Some a'
                           /\ length (RelatedPages a') = (length (RelatedPages a) + length links)%nat
  | Panic => forallb contains_slash links = false
  end.
Proof.
  induction links as [|link links IH]; intros b a Ha.
  { simpl. split_and!; [done..|]. exists a. split; [done|lia]. }
  simpl. destruct (contains_slash link) eqn:Hs.
  2:{ by rewrite relateLink_no_slash. }
  rewrite (relateLink_slash p link b a Hs Ha). simpl.
  set (a1 := appendRelated _ a).
  assert (Ha1 : store (setArticle (ap_Article p) a1 b) !! ap_Article p = Some a1).
  { simpl. apply list_lookup_insert_eq. by apply lookup_lt_Some in Ha. }
  specialize (IH _ a1 Ha1).
  destruct (relateLinks resolvePath p links (setArticle (ap_Article p) a1 b)) as [b'|]; [|done].
  destruct IH as (H1 & H2 & H3 & a' & H4 & H5).
  split_and!; [done|done| |].
  - rewrite H3. simpl. by apply (Related_insert _ _ a).
  - exists a'. split; [done|]. rewrite H5. subst a1. simpl. rewrite length_app. simpl. lia.
Qed.

Lemma relatePages_spec pages : forall b,
  match relatePages resolvePath pages b with
  | Ok b' => forallb (relatable (store b)) pages = true
             /\ site b' = site b
             /\ map Related (store b') = map Related (store b)
  | Panic => forallb (relatable (store b)) pages = false
  end.
Proof.
  induction pages as [|p pages IH]; intros b; [done|].
  simpl. unfold deref, relatable at 1 3.
  destruct (store b !! ap_Article p) as [a|] eqn:Ha; [|done]. simpl.
  pose proof (relateLinks_spec p (Related a) b a Ha) as Hl.
  destruct (relateLinks resolvePath p (Related a) b) as [b1|]; [|by rewrite Hl].
  destruct Hl as (H1 & H2 & H3 & _). rewrite H1. simpl.
  specialize (IH b1).
  assert (Heq : forallb (relatable (store b1)) pages = forallb (relatable (store b)) pages).
  { clear -H3. induction pages as [|q pages IHp]; [done|]. simpl.
    by rewrite IHp, (relatable_same_links _ _ q H3). }
  rewrite <- Heq.
  destruct (relatePages resolvePath pages b1) as [b2|]; [|done].
  destruct IH as (H4 & H5 & H6). split_and!; [done|congruence|congruence].
Qed.

Lemma buildRelated_walkLoop todo : forall b,
  Forall (fun kj : string * nat => is_Some (routes (site b) !! snd kj)) todo ->
  match walkLoop (buildRelatedFn resolvePath) todo b with
  | Ok b' => forallb (fun kj : string * nat =>
                        forallb (relatable (store b)) (pagesOf (routes (site b)) (snd kj))) todo
             = true
             /\ site b' = site b
             /\ map Related (store b') = map Related (store b)
  | Panic => forallb (fun kj : string * nat =>
                        forallb (relatable (store b)) (pagesOf (routes (site b)) (snd kj))) todo
             = false
  end.
Proof.
  induction todo as [|[k j] todo IH]; intros b Hall; [done|].
  apply Forall_cons in Hall as [[kv Hj] Hall]. simpl in Hj.
  assert (Hfn : buildRelatedFn resolvePath k j b = relatePages resolvePath (Pages (snd kv)) b).
  { unfold buildRelatedFn, getRoute. by rewrite Hj. }
  cbn [walkLoop forallb snd]. rewrite Hfn. unfold pagesOf at 1 3. rewrite Hj.
  pose proof (relatePages_spec (Pages (snd kv)) b) as Hp.
  destruct (relatePages resolvePath (Pages (snd kv)) b) as [b1|]; [|by rewrite Hp].
  destruct Hp as (H1 & H2 & H3). rewrite H1. simpl.
  assert (Hall1 : Forall (fun kj : string * nat => is_Some (routes (site b1) !! snd kj)) todo)
    by (by rewrite H2).
  specialize (IH b1 Hall1). rewrite H2 in IH.
  assert (Heq : forallb (fun kj : string * nat =>
                    forallb (relatable (store b1)) (pagesOf (routes (site b)) (snd kj))) todo
                = forallb (fun kj : string * nat =>
                    forallb (relatable (store b)) (pagesOf (routes (site b)) (snd kj))) todo).
  { clear -H3. induction todo as [|kj todo IHt]; [done|]. simpl. rewrite IHt. f_equal.
    induction (pagesOf (routes (site b)) (snd kj)) as [|q l IHl]; [done|]. simpl.
    by rewrite IHl, (relatable_same_links _ _ q H3). }
  rewrite <- Heq.
  destruct (walkLoop (buildRelatedFn resolvePath) todo b1) as [b2|]; [|done].
  destruct IH as (H4 & H5 & H6). split_and!; [done|congruence|congruence].
Qed.

Lemma forallb_indices (P : list ArticlePage -> bool) (R : list (string * RouteInfo)) :
  forall l seen, R = seen ++ l ->
    forallb (fun kj : string * nat => P (pagesOf R (snd kj)))
            (imap (fun j kv => (fst kv, length seen + j)%nat) l)
    = forallb (fun kv => P (Pages (snd kv))) l.
Proof.
  induction l as [|kv l IH]; intros seen HR; [done|].
  rewrite imap_cons. simpl. rewrite Nat.add_0_r. f_equal.
  - unfold pagesOf. rewrite HR. by rewrite list_lookup_middle.
  - rewrite <- (IH (seen ++ [kv])) by (by rewrite <- app_assoc).
    f_equal. apply imap_ext. intros j x _. simpl. rewrite length_app. simpl. f_equal. lia.
Qed.

(** Every page of every route has an article all of whose links have a
    slash. *)
Definition allRelatable (b : Build) : bool :=
  forallb (fun kv => forallb (relatable (store b)) (Pages (snd kv))) (routes (site b)).

(** [buildRelated] returns on the sites that are [allRelatable], and
    panics on the others. *)
Lemma buildRelated_spec b :
  match buildRelated resolvePath b with
  | Ok b' => allRelatable b = true
             /\ site b' = site b
             /\ map Related (store b') = map Related (store b)
  | Panic => allRelatable b = false
  end.
Proof.
  unfold buildRelated, WalkRoutes.
  pose proof (buildRelated_walkLoop _ b (Forall_indices (routes (site b)))) as H.
  pose proof (forallb_indices (forallb (relatable (store b))) (routes (site b))
                (routes (site b)) [] eq_refl) as Hidx.
  simpl in Hidx. rewrite Hidx in H. exact H.
Qed.

(** Every link of every article that a page of a route points to has a
    slash. *)
Definition linksHaveSlash (b : Build) : Prop :=
  forall r ri p a link,
    In (r, ri) (routes (site b)) -> In p (Pages ri) ->
    store b !! ap_Article p = Some a -> In link (Related a) ->
    contains_slash link = true.

Lemma allRelatable_links b :
  pagesReadable b = true -> allRelatable b = true <-> linksHaveSlash b.
Proof.
  intros Hread. unfold allRelatable, linksHaveSlash. rewrite forallb_forall. split.
  - intros H r ri p a link Hr Hp Ha Hl. specialize (H (r, ri) Hr). simpl in H.
    rewrite forallb_forall in H. specialize (H p Hp). unfold relatable in H.
    rewrite Ha in H. rewrite forallb_forall in H. by apply H.
  - intros H [r ri] Hr. simpl. apply forallb_forall. intros p Hp.
    pose proof (pagesReadable_In b r ri Hread Hr) as Hri.
    rewrite forallb_forall in Hri. specialize (Hri p Hp). unfold readable in Hri.
    unfold relatable. destruct (store b !! ap_Article p) as [a|] eqn:Ha; [|done].
    apply forallb_forall. intros link Hl. by apply (H r ri p a link).
Qed.

(** C10: where every page has its article, [buildRelated] returns if
    every link has a slash, and only then: it panics if some link has
    none. For such a link [strings.LastIndex] is -1, and the slice
    expression with this bound panics. *)
Theorem buildRelated_returns_iff_links_have_slash (b : Build) :
  pagesReadable b = true ->
  ((exists b', buildRelated resolvePath b = Ok b') <-> linksHaveSlash b)
  /\ (buildRelated resolvePath b = Panic <-> ~ linksHaveSlash b)
  /\ (forall link, contains_slash link = false <-> LastIndex link = -1)
  /\ (forall link, LastIndex link = -1 -> slice_to link (LastIndex link) = Panic).
Proof.
  intros Hread. pose proof (buildRelated_spec b) as Hspec.
  pose proof (allRelatable_links b Hread) as Hlinks.
  split_and!.
  - split.
    + intros [b' Hb']. rewrite Hb' in Hspec. by apply Hlinks, Hspec.
    + intros H. apply Hlinks in H.
      destruct (buildRelated resolvePath b) as [b'|]; [eauto|congruence].
  - split.
    + intros Hp H. rewrite Hp in Hspec. apply Hlinks in H. congruence.
    + intros H. destruct (buildRelated resolvePath b) as [b'|]; [|done].
      exfalso. by apply H, Hlinks, Hspec.
  - apply LastIndex_no_slash.
  - intros link ->. done.
Qed.

End Related.

(** An article with three links: to an article of its route, to an
    article that its route does not have, and into a route that the site
    does not have. *)
Definition threeLinks : Build :=
  mkState [("blog", route [page "blog" 0; page "blog" 1])]
          [article "post-1" 20230101 false [];
           article "post-2" 20230201 false ["blog/post-1"; "blog/missing"; "nowhere/post-1"]].

(** An article with a link that has no slash. *)
Definition linkWithoutSlash : Build :=
  mkState [("blog", route [page "blog" 0; page "blog" 1])]
          [article "post-1" 20230101 false [];
           article "post-2" 20230201 false ["post-1"]].

Definition relatedPagesOf (a : addr) (res : result Build) : option (list (option ArticlePage)) :=
  match res with
  | Ok b => RelatedPages <$> store b !! a
  | Panic => None
  end.

Lemma buildRelated_returns_iff_links_have_slash_witness :
  ((exists b', buildRelated Builder.resolvePath threeLinks = Ok b') <-> linksHaveSlash threeLinks)
  /\ (buildRelated Builder.resolvePath threeLinks = Panic <-> ~ linksHaveSlash threeLinks)
  /\ (forall link, contains_slash link = false <-> LastIndex link = -1)
  /\ (forall link, LastIndex link = -1 -> slice_to link (LastIndex link) = Panic).
Proof.
  apply (buildRelated_returns_iff_links_have_slash string Builder.resolvePath threeLinks).
  reflexivity.
Defined.

(** The link without a slash makes the pass panic. *)
Example buildRelated_link_without_slash :
  buildRelated Builder.resolvePath linkWithoutSlash = Panic.
Proof. reflexivity. Qed.

(** C2: a link that does not resolve is not fatal, but the page pointer
    that the resolution returns for it is appended to the related pages
    all the same. The article with three links has three related pages
    whatever [resolvePath] returns; with a [resolvePath] that returns nil
    for a miss, two of them are nil. The specification has one related
    page. *)
Theorem buildRelated_appends_nil_for_a_miss (error : Type)
    (resolve : Build -> string -> string -> option ArticlePage * option error) :
  length <$> relatedPagesOf 1 (buildRelated resolve threeLinks) = Some 3%nat
  /\ relatedPagesOf 1 (buildRelated Builder.resolvePath threeLinks)
     = Some [Some (page "blog" 0); None; None].
Proof.
  split; [|reflexivity].
  cbv -[length].
  repeat match goal with
         | |- context [resolve ?b ?path ?id] => destruct (resolve b path id) as [? _]
         end.
  reflexivity.
Qed.

(** *** [buildPage] *)

Section BuildPage.
Variable error : Type.
Variables BuildPath ContentDir : string.
Variable ParseArticle : list Byte.byte -> Article + error.
Variable registerPage : ArticlePage -> Site -> Site.
Variable registerIndexPage : model.IndexPage -> Site -> Site.

Definition withID (id : string) (a : Article) : Article :=
  {| ID := id; Date := Date a; Hide := Hide a; Related := Related a;
     RelatedPages := RelatedPages a |}.

(** C3, amended: the only error of [buildPage] is the error of the
    parser, and the builder is then as it was. There is no error for a
    file path outside the content root: where the build path is not [.]
    and the file path is not shorter than build path, slash and content
    directory, as many bytes are dropped from its front, whatever they
    are, and the page is registered at the directory of the rest, as the
    index page if the file is named [index]. *)
Theorem buildPage_does_not_check_the_prefix (source : list Byte.byte) (file : string)
    (mode : registerMode) (b : Build) :
  (forall err, ParseArticle source = inr err ->
     buildPage BuildPath ContentDir ParseArticle registerPage registerIndexPage source file mode b
     = Ok (None, Some err, b))
  /\ (forall parsed, ParseArticle source = inl parsed ->
        BuildPath <> "."%string ->
        len (BuildPath +:+ "/" +:+ ContentDir) <= len file ->
        let route :=
          GoFilepath.Dir (str_drop (String.length (BuildPath +:+ "/" +:+ ContentDir)) file) in
        let id := TrimSuffix (GoFilepath.Base file) (GoFilepath.Ext file) in
        let pg := {| ap_Page := {| Path := route |}; ap_Article := length (store b) |} in
        buildPage BuildPath ContentDir ParseArticle registerPage registerIndexPage source file mode b
        = Ok (Some pg, None,
              {| site := if String.eqb id "index"
                         then registerIndexPage {| ip_Page := {| Path := route |};
                                                   ip_Article := length (store b);
                                                   ip_ArticlePages := [] |} (site b)
                         else registerPage pg (site b);
                 store := store b ++ [withID id parsed] |}))
  /\ (forall pg err b',
        buildPage BuildPath ContentDir ParseArticle registerPage registerIndexPage source file mode b
        = Ok (pg, Some err, b') ->
        ParseArticle source = inr err /\ pg = None /\ b' = b).
Proof.
  split_and!.
  - intros err Herr. unfold buildPage. by rewrite Herr.
  - intros parsed Hparsed Hdot Hlen route id pg. unfold buildPage. rewrite Hparsed.
    destruct (String.eqb_spec BuildPath ".") as [|_]; [done|]. simpl.
    unfold slice_from.
    assert ((0 <=? len (BuildPath +:+ "/" +:+ ContentDir))
            && (len (BuildPath +:+ "/" +:+ ContentDir) <=? len file) = true) as ->.
    { apply andb_true_iff. split; apply Z.leb_le; [unfold len; lia|done]. }
    simpl.
    assert (Z.to_nat (len (BuildPath +:+ "/" +:+ ContentDir))
            = String.length (BuildPath +:+ "/" +:+ ContentDir)) as ->
      by (unfold len; apply Nat2Z.id).
    reflexivity.
  - intros pg err b'. unfold buildPage.
    destruct (ParseArticle source) as [parsed|err0]; [|by intros [= <- <- <-]].
    intros H. exfalso.
    destruct (String.eqb BuildPath ".").
    + simpl in H. destruct (slice_to file (len ContentDir)); simpl in H; [|done].
      match type of H with
      | context [slice_from file ?n] => destruct (slice_from file n); simpl in H; [|done]
      end.
      by injection H.
    + simpl in H.
      match type of H with
      | context [slice_from file ?n] => destruct (slice_from file n); simpl in H; [|done]
      end.
      by injection H.
Qed.

End BuildPage.

Definition emptyBuild : Build := mkState [] [].

(** A parser that hands out an article with no links, for any source. *)
Definition parseAny (source : list Byte.byte) : Article + string :=
  inl (article "" 20230101 false []).

(** C3 as the specification states it fails: the content root
    [my-site/content] is not a prefix of the file path, and [buildPage]
    returns no error. *)
Lemma buildPage_outside_the_content_root :
  ~ (String.prefix "my-site/content" "elsewhere/zzzzz/blog/post.md" = false ->
     exists err,
       buildPage "my-site" "content" parseAny Builder.registerPage Builder.registerIndexPage
         [] "elsewhere/zzzzz/blog/post.md" DirectRegister emptyBuild
       = Ok (None, Some err, emptyBuild)).
Proof.
  intros H. destruct (H eq_refl) as [err Herr]. vm_compute in Herr. discriminate Herr.
Qed.

(** The page of the file outside the content root is registered, at the
    route [/blog]. *)
Example buildPage_outside_the_content_root_registers :
  buildPage "my-site" "content" parseAny Builder.registerPage Builder.registerIndexPage
    [] "elsewhere/zzzzz/blog/post.md" DirectRegister emptyBuild
  = Ok (Some (page "/blog" 0), None,
        mkState [("/blog", route [page "/blog" 0])] [article "post" 20230101 false []]).
Proof. reflexivity. Qed.

(** A file within the content root, and the index file of a route. *)
Example buildPage_within_the_content_root :
  buildPage "my-site" "content" parseAny Builder.registerPage Builder.registerIndexPage
    [] "my-site/content/blog/category-1/post.md" DirectRegister emptyBuild
  = Ok (Some (page "/blog/category-1" 0), None,
        mkState [("/blog/category-1", route [page "/blog/category-1" 0])]
                [article "post" 20230101 false []])
  /\ buildPage "." "content" parseAny Builder.registerPage Builder.registerIndexPage
       [] "content/blog/index.md" DirectRegister emptyBuild
     = Ok (Some (page "/blog" 0), None,
           mkState [("/blog", indexRoute "/blog" 0 [])] [article "index" 20230101 false []]).
Proof. split; reflexivity. Qed.

End BuilderFacts.

(** * Further properties of the route tree *)

Module SiteTreeMore.
Import model SiteTree SiteTreeFacts.

(** The pages of a list registered one after the other. *)
Definition registerAll (pages : list ArticlePage) (s : Site) : Site :=
  fold_left (fun s page => registerPage page s) pages s.

(** The pages of the routes below a route, a route before its
    descendants. *)
Fixpoint pagesBelow (r : Route) : list ArticlePage :=
  match r with
  | mkRoute _ _ cs =>
      (fix go (cs : list (string * Route)) : list ArticlePage :=
         match cs with
         | [] => []
         | (_, c) :: cs' => Pages c ++ pagesBelow c ++ go cs'
         end) cs
  end.

(** The tree after a walk down to [n] levels whose callback turns a route
    [r] into [f r]. *)
Fixpoint mapBelow (n : nat) (f : Route -> Route) (r : Route) : Route :=
  match n with
  | O => r
  | S n' => setChildren r (map (fun kc => (fst kc, mapBelow n' f (f (snd kc)))) (Children r))
  end.

(** [strings.Join] puts together what [strings.Split] has cut. *)
Lemma Join_Split (s : string) : GoStrings.Join (GoStrings.Split s) = s.
Proof.
  induction s as [|c s IH]; [done|]. simpl.
  pose proof (Split_not_nil s) as Hne.
  destruct (Ascii.eqb_spec c GoStrings.slash) as [->|_].
  - destruct (GoStrings.Split s) as [|x xs]; [done|]. simpl in *. by rewrite IH.
  - destruct (GoStrings.Split s) as [|x xs]; [done|].
    destruct xs as [|y ys]; simpl in *; by rewrite <- IH.
Qed.

Lemma Split_inj (s t : string) : GoStrings.Split s = GoStrings.Split t -> s = t.
Proof. intros H. by rewrite <- (Join_Split s), <- (Join_Split t), H. Qed.

Lemma pagesAt_registerPage page s q :
  pagesAt q (root (registerPage page s))
  = if decide (q = GoStrings.Split (Path (ap_Page page)))
    then pagesAt q (root s) ++ [page] else pagesAt q (root s).
Proof.
  unfold registerPage. simpl root. apply pagesAt_registerLoop; [done|apply Split_not_nil].
Qed.

Lemma pagesAt_registerAll pages : forall s q,
  pagesAt q (root (registerAll pages s))
  = pagesAt q (root s)
    ++ filter (fun page => GoStrings.Split (Path (ap_Page page)) = q) pages.
Proof.
  induction pages as [|page pages IH]; intros s q; simpl.
  { by rewrite app_nil_r. }
  unfold registerAll in *. simpl. rewrite IH, pagesAt_registerPage, filter_cons.
  destruct (decide (q = GoStrings.Split (Path (ap_Page page)))) as [->|Hne].
  - rewrite decide_True by done. by rewrite <- app_assoc.
  - rewrite decide_False by done. done.
Qed.

(** X1: the pages at a path of a site that has been built by
    registrations are the registered pages of this path, in the order of
    their registration. *)
Theorem registerAll_pages_of_a_path (pages : list ArticlePage) (path : string) :
  pagesAt (GoStrings.Split path) (root (registerAll pages newSite))
  = filter (fun page => Path (ap_Page page) = path) pages.
Proof.
  rewrite pagesAt_registerAll.
  assert (pagesAt (GoStrings.Split path) (root newSite) = []) as ->.
  { pose proof (Split_not_nil path). by destruct (GoStrings.Split path). }
  simpl. induction pages as [|page pages IH]; [done|].
  rewrite !filter_cons, IH.
  destruct (decide (Path (ap_Page page) = path)) as [->|Hne].
  - by rewrite decide_True.
  - rewrite decide_False; [done|]. intros H. by apply Split_inj in H.
Qed.

Lemma resolve_registerPage_is_Some page s q :
  is_Some (resolve q (root (registerPage page s)))
  <-> is_Some (resolve q (root s))
      \/ (q <> [] /\ q `prefix_of` GoStrings.Split (Path (ap_Page page))).
Proof.
  unfold registerPage. simpl root.
  apply resolve_registerLoop_is_Some; [done|apply Split_not_nil].
Qed.

Lemma resolve_registerAll_is_Some pages : forall s q,
  is_Some (resolve q (root (registerAll pages s)))
  <-> is_Some (resolve q (root s))
      \/ (q <> [] /\ exists page, In page pages
                                  /\ q `prefix_of` GoStrings.Split (Path (ap_Page page))).
Proof.
  induction pages as [|page pages IH]; intros s q.
  { simpl. split; [by left|]. intros [?|(_ & ? & [] & _)]. done. }
  unfold registerAll in *. simpl fold_left. rewrite IH, resolve_registerPage_is_Some.
  split.
  - intros [[?|[? ?]]|(? & p & ? & ?)]; [by left|right|right].
    + split; [done|]. exists page. split; [by left|done].
    + split; [done|]. exists p. split; [by right|done].
  - intros [?|(Hq & p & [<-|Hin] & Hpre)]; [by left; left|by left; right|].
    right. split; [done|]. by exists p.
Qed.

(** X2: routes are created where a page needs them, and nowhere else.
    The paths that lead to a route of a site built by registrations are
    the empty path, for the root, and the beginnings of the paths of the
    registered pages. *)
Theorem registerAll_routes (pages : list ArticlePage) (q : list string) :
  is_Some (resolve q (root (registerAll pages newSite)))
  <-> q = []
      \/ exists page, In page pages /\ q `prefix_of` GoStrings.Split (Path (ap_Page page)).
Proof.
  rewrite resolve_registerAll_is_Some. split.
  - intros [H|(_ & p & ? & ?)]; [|right; by exists p].
    left. destruct q as [|k q]; [done|]. simpl in H. by destruct H.
  - intros [->|(p & ? & ?)]; [left; simpl; eauto|].
    destruct q as [|k q]; [left; simpl; eauto|]. right. split; [done|]. by exists p.
Qed.

(** *** What the registrations keep *)

Definition listPageAt (q : list string) : option ArticleListPage :=
  Some {| alp_Page := {| Path := GoFilepath.Join (removelast q) |}; alp_Articles := [] |}.

Lemma prefix_take (q l : list string) : q `prefix_of` l -> q = take (length q) l.
Proof. intros [k ->]. by rewrite take_app_length. Qed.

Lemma listPage_registerPage page s :
  (forall q r, q <> [] -> resolve q (root s) = Some r -> ListPage r = listPageAt q) ->
  forall q r, q <> [] -> resolve q (root (registerPage page s)) = Some r ->
              ListPage r = listPageAt q.
Proof.
  intros Hinv q r' Hq Hr'.
  set (segs := GoStrings.Split (Path (ap_Page page))) in *.
  assert (Hsegs : segs <> []) by apply Split_not_nil.
  destruct (resolve q (root s)) as [r|] eqn:Hr.
  - destruct (resolve_registerLoop_reuse page segs segs 0%nat (root s) q r eq_refl Hsegs Hr)
      as (r'' & H1 & H2 & _).
    unfold registerPage in Hr'. simpl root in Hr'. fold segs in Hr'.
    rewrite H1 in Hr'. injection Hr' as <-. rewrite H2. by apply Hinv.
  - assert (Hnew : is_Some (resolve q (root (registerPage page s)))) by (rewrite Hr'; eauto).
    apply resolve_registerPage_is_Some in Hnew as [Hold|[_ Hpre]].
    { rewrite Hr in Hold. by destruct Hold. }
    fold segs in Hpre. pose proof (prefix_length _ _ Hpre) as Hlen.
    apply prefix_take in Hpre.
    destruct q as [|k q]; [done|]. simpl length in *.
    rewrite Hpre in Hr.
    destruct (resolve_registerLoop_created page segs segs 0%nat (root s) (length q) eq_refl
                ltac:(lia) Hr) as (r'' & H1 & H2).
    unfold registerPage in Hr'. simpl root in Hr'. fold segs in Hr'.
    rewrite Hpre, H1 in Hr'. injection Hr' as <-. rewrite H2. unfold listPageAt.
    rewrite Hpre. rewrite removelast_firstn by lia. done.
Qed.

(** X3: a site built by registrations keeps the keys of every route
    unique, keeps the root without pages and without a list page, and
    gives every other route a list page with no articles, whose path is
    the join of the segments before the route's own. *)
Theorem registerAll_invariants (pages : list ArticlePage) :
  let s := registerAll pages newSite in
  wf_route (root s)
  /\ Pages (root s) = []
  /\ ListPage (root s) = None
  /\ forall q r, q <> [] -> resolve q (root s) = Some r -> ListPage r = listPageAt q.
Proof.
  assert (Hgen : forall s0,
            wf_route (root s0) ->
            (forall q r, q <> [] -> resolve q (root s0) = Some r -> ListPage r = listPageAt q) ->
            let s := registerAll pages s0 in
            wf_route (root s) /\ Pages (root s) = Pages (root s0)
            /\ ListPage (root s) = ListPage (root s0)
            /\ forall q r, q <> [] -> resolve q (root s) = Some r -> ListPage r = listPageAt q).
  { induction pages as [|page pages IH]; intros s0 Hwf Hinv; [done|].
    unfold registerAll in *. simpl fold_left.
    destruct (IH (registerPage page s0)) as (H1 & H2 & H3 & H4).
    - by apply wf_registerPage.
    - by apply listPage_registerPage.
    - split_and!; [done| | |done].
      + rewrite H2. apply Pages_registerLoop.
      + rewrite H3. apply ListPage_registerLoop. }
  apply Hgen; [apply wf_newSite|]. intros [|k q] r Hq Hr; [done|]. done.
Qed.

(** *** A walk meets every registered page *)

Lemma pagesBelow_children r :
  pagesBelow r = flat_map (fun kc => Pages (snd kc) ++ pagesBelow (snd kc)) (Children r).
Proof.
  destruct r as [ps lp cs]. simpl.
  induction cs as [|[k c] cs IH]; [done|]. simpl. by rewrite IH, app_assoc.
Qed.

Lemma put_present {V} k (c v : V) cs :
  GoMap.get k cs = Some c ->
  exists l1 l2, cs = l1 ++ (k, c) :: l2 /\ GoMap.put k v cs = l1 ++ (k, v) :: l2.
Proof.
  induction cs as [|[k' c'] cs IH]; simpl; [done|].
  destruct (String.eqb_spec k k') as [->|Hne].
  - intros [= ->]. by exists [], cs.
  - intros H. destruct (IH H) as (l1 & l2 & -> & ->). by exists ((k', c') :: l1), l2.
Qed.

Lemma put_absent {V} k (v : V) cs :
  GoMap.get k cs = None -> GoMap.put k v cs = cs ++ [(k, v)].
Proof.
  induction cs as [|[k' c'] cs IH]; simpl; [done|].
  destruct (String.eqb_spec k k') as [->|Hne]; [done|]. intros H. by rewrite IH.
Qed.

Lemma pagesBelow_registerLoop page segs rest : forall i node,
  (i + length rest = length segs)%nat -> rest <> [] ->
  pagesBelow (registerLoop page segs i rest node) ≡ₚ page :: pagesBelow node.
Proof.
  induction rest as [|seg rest IH]; intros i node Hlen Hne; [done|].
  rewrite registerLoop_cons. cbv zeta. simpl in Hlen.
  rewrite (last_segment_test segs rest i) by lia.
  rewrite (pagesBelow_children node), pagesBelow_children. simpl Children.
  set (F := fun kc : string * Route => Pages (snd kc) ++ pagesBelow (snd kc)).
  set (child := match GoMap.get seg (Children node) with
                | Some c => c
                | None => setListPagePath (GoFilepath.Join (take i segs)) newRoute
                end).
  set (child' := if match rest with [] => true | _ :: _ => false end
                 then appendPage page child
                 else registerLoop page segs (S i) rest child).
  assert (Hchild : F (seg, child') ≡ₚ page :: F (seg, child)).
  { unfold F, child'. cbn [snd]. destruct rest as [|seg' rest].
    - assert (pagesBelow (appendPage page child) = pagesBelow child) as ->
        by (by destruct child).
      change (Pages (appendPage page child)) with (Pages child ++ [page]).
      rewrite <- app_assoc. cbn [app]. by rewrite <- Permutation_middle.
    - rewrite Pages_registerLoop, IH by (simpl in *; (lia || done)).
      by rewrite <- Permutation_middle. }
  destruct (GoMap.get seg (Children node)) as [c|] eqn:Hget.
  - destruct (put_present seg c child' (Children node) Hget) as (l1 & l2 & Hcs & ->).
    rewrite Hcs, !flat_map_app. simpl. rewrite Hchild. subst child.
    cbn [app]. by rewrite <- Permutation_middle.
  - rewrite (put_absent seg child' (Children node) Hget), flat_map_app. simpl.
    rewrite app_nil_r, Hchild. subst child. unfold F at 3. simpl.
    by rewrite <- Permutation_middle, app_nil_r.
Qed.

Lemma pagesBelow_registerAll pages : forall s,
  pagesBelow (root (registerAll pages s)) ≡ₚ pagesBelow (root s) ++ pages.
Proof.
  induction pages as [|page pages IH]; intros s; simpl.
  { by rewrite app_nil_r. }
  unfold registerAll in *. simpl fold_left. rewrite IH. unfold registerPage. simpl root.
  rewrite pagesBelow_registerLoop by (done || apply Split_not_nil).
  by rewrite <- Permutation_middle.
Qed.

Lemma pages_of_below n : forall r,
  (height r <= n)%nat ->
  flat_map Pages (map snd (below n r)) = pagesBelow r.
Proof.
  induction n as [|n IH]; intros r Hh.
  { rewrite pagesBelow_children, (height_no_children r) by lia. done. }
  rewrite below_routes, pagesBelow_children.
  assert (Hkids : forall k c, In (k, c) (Children r) -> (height c <= n)%nat).
  { intros k c Hin. apply (height_child k) in Hin. lia. }
  induction (Children r) as [|[k c] cs IHcs]; [done|].
  simpl. rewrite flat_map_app, IHcs by (intros k' c' ?; apply (Hkids k'); by right).
  rewrite (IH c) by (apply (Hkids k); by left). by rewrite <- app_assoc.
Qed.

Lemma visitAll_collect (rs : list Route) : forall st : list ArticlePage,
  visitAll (fun r st => st ++ Pages r) rs st = st ++ flat_map Pages rs.
Proof.
  induction rs as [|r rs IH]; intros st; simpl.
  { by rewrite app_nil_r. }
  unfold visitAll in *. simpl. by rewrite IH, <- app_assoc.
Qed.

Lemma Site_eta (s : Site) : {| root := root s |} = s.
Proof. by destruct s. Qed.

(** X4: a walk of all levels over a site built by registrations meets
    every registered page once: the pages of the routes it visits are the
    registered pages, each as often as it has been registered. *)
Theorem WalkRoutes_meets_the_registered_pages (pages : list ArticlePage) (fuel : nat) :
  (height (root (registerAll pages newSite)) < fuel)%nat ->
  exists met,
    WalkRoutes (readOnly (fun r st => st ++ Pages r)) fuel (registerAll pages newSite) (-1) []
    = Some (registerAll pages newSite, met)
    /\ met ≡ₚ pages.
Proof.
  intros Hfuel. set (s := registerAll pages newSite) in *.
  unfold WalkRoutes.
  rewrite (walkRoute_readOnly _ fuel (root s) (-1) 0 (height (root s)) []);
    [|done|left; split; [done|lia]].
  rewrite Site_eta. eexists. split; [done|].
  rewrite visitAll_collect. simpl. rewrite pages_of_below by lia.
  subst s. by rewrite pagesBelow_registerAll.
Qed.

Lemma WalkRoutes_meets_the_registered_pages_witness :
  exists met,
    WalkRoutes (readOnly (fun r st => st ++ Pages r)) 4
      (registerAll [pageAt "a/d" 0; pageAt "x" 1; pageAt "a/b/c" 2; pageAt "x" 3] newSite) (-1) []
    = Some (registerAll [pageAt "a/d" 0; pageAt "x" 1; pageAt "a/b/c" 2; pageAt "x" 3] newSite, met)
    /\ met ≡ₚ [pageAt "a/d" 0; pageAt "x" 1; pageAt "a/b/c" 2; pageAt "x" 3].
Proof.
  apply (WalkRoutes_meets_the_registered_pages
           [pageAt "a/d" 0; pageAt "x" 1; pageAt "a/b/c" 2; pageAt "x" 3] 4).
  vm_compute. lia.
Defined.

(** *** Walks whose callback edits the routes *)

Lemma height_Children r r' : Children r = Children r' -> height r = height r'.
Proof. destruct r, r'. simpl. by intros ->. Qed.

Lemma below_Children n r r' : Children r = Children r' -> below n r = below n r'.
Proof. destruct n; [done|]. simpl. by intros ->. Qed.

Lemma resolve_Children q r r' :
  q <> [] -> Children r = Children r' -> resolve q r = resolve q r'.
Proof. destruct q; [done|]. simpl. by intros _ ->. Qed.

Section WalkEdit.
Context {St : Type}.
Variable f : Route -> Route.
Variable g : Route -> St -> St.

(** The callback edits the pages and the list page of the route, not its
    children. *)
Hypothesis f_Children : forall r, Children (f r) = Children r.

Definition edit (r : Route) (st : St) : Route * St := (f r, g r st).

(** The levels before a walk at [currentDepth]: what is left down to
    [depth], or all of the tree where the depth is negative and the
    counter cannot reach it. *)
Definition levels (depth currentDepth : Z) (n : nat) (r : Route) : Prop :=
  (depth = -1 /\ (height r <= n)%nat)
  \/ (0 <= currentDepth /\ currentDepth + Z.of_nat n = depth /\ depth < 2 ^ 63)
  \/ (depth < -1 /\ 0 <= currentDepth /\ currentDepth + Z.of_nat (height r) < 2 ^ 63
      /\ (height r <= n)%nat).

Lemma walkRoute_edit fuel :
  forall r depth currentDepth n st,
    (height r < fuel)%nat ->
    levels depth currentDepth n r ->
    walkRoute edit fuel r depth currentDepth st
    = Some (mapBelow n f r, visitAll g (map snd (below n r)) st).
Proof.
  induction fuel as [|fuel IH]; intros r depth cd n st Hfuel Hn; [lia|].
  simpl walkRoute.
  destruct (negb (depth =? -1) && (cd =? depth)) eqn:Estop.
  { apply andb_true_iff in Estop as [Hd Hcd].
    apply negb_true_iff, Z.eqb_neq in Hd. apply Z.eqb_eq in Hcd.
    destruct Hn as [[? _]|[(? & ? & ?)|(? & ? & _)]]; [done| |lia].
    assert (n = 0%nat) as -> by lia. done. }
  destruct n as [|n].
  { assert (Hh : height r = 0%nat).
    { destruct Hn as [[_ ?]|[(? & ? & ?)|(_ & _ & _ & ?)]]; [lia| |lia].
      apply andb_false_iff in Estop as [Hd|Hcd].
      - apply negb_false_iff, Z.eqb_eq in Hd. lia.
      - apply Z.eqb_neq in Hcd. lia. }
    rewrite (height_no_children r Hh). simpl.
    rewrite <- (height_no_children r Hh). by rewrite setChildren_id. }
  rewrite below_routes.
  assert (Hkids : forall k c, In (k, c) (Children r) ->
            (height (f c) < fuel)%nat /\ levels depth (wrap64 (cd + 1)) n (f c)).
  { intros k c Hin. apply (height_child k) in Hin.
    pose proof (height_Children (f c) c (f_Children c)) as Hfc.
    unfold levels. rewrite Hfc. split; [lia|].
    destruct Hn as [[-> Hh]|[(? & ? & ?)|(? & ? & ? & ?)]].
    - left. split; [done|lia].
    - right. left. assert (wrap64 (cd + 1) = cd + 1) as ->.
      { unfold wrap64. rewrite Z.mod_small; lia. }
      lia.
    - right. right. assert (wrap64 (cd + 1) = cd + 1) as ->.
      { unfold wrap64. rewrite Z.mod_small; lia. }
      lia. }
  assert (Hrange : forall cs st,
            (forall k c, In (k, c) cs ->
               (height (f c) < fuel)%nat /\ levels depth (wrap64 (cd + 1)) n (f c)) ->
            rangeChildren
              (fun c st => let '(c1, st1) := edit c st in
                           walkRoute edit fuel c1 depth (wrap64 (cd + 1)) st1) cs st
            = Some (map (fun kc => (fst kc, mapBelow n f (f (snd kc)))) cs,
                    visitAll g
                      (flat_map (fun kc => snd kc :: map snd (below n (snd kc))) cs) st)).
  { clear -IH f_Children. induction cs as [|[k c] cs IHcs]; intros st Hcs; [done|].
    simpl. destruct (Hcs k c (or_introl eq_refl)) as [Hh Hl].
    rewrite (IH (f c) depth _ n _ Hh Hl).
    rewrite IHcs by (intros k' c' ?; apply (Hcs k'); by right).
    rewrite (below_Children n (f c) c (f_Children c)).
    unfold visitAll. by rewrite fold_left_app. }
  rewrite (Hrange _ _ Hkids). done.
Qed.

Lemma get_map_children (h : Route -> Route) k cs :
  GoMap.get k (map (fun kc : string * Route => (fst kc, h (snd kc))) cs)
  = h <$> GoMap.get k cs.
Proof.
  induction cs as [|[k' c] cs IH]; [done|]. simpl.
  destruct (String.eqb k k'); [done|apply IH].
Qed.

(** The route at a path after the edits. *)
Lemma resolve_mapBelow q : forall n r r0,
  q <> [] -> resolve q r = Some r0 ->
  resolve q (mapBelow n f r)
  = Some (if decide (length q <= n)%nat then mapBelow (n - length q) f (f r0) else r0).
Proof.
  induction q as [|k q IH]; intros n r r0 Hq Hr; [done|].
  destruct n as [|n].
  { simpl mapBelow. rewrite Hr. rewrite decide_False by (simpl; lia). done. }
  simpl mapBelow. rewrite resolve_cons in *. simpl Children.
  rewrite (get_map_children (fun c => mapBelow n f (f c))).
  destruct (GoMap.get k (Children r)) as [c|]; [|done]. simpl.
  destruct q as [|k' q].
  - simpl in *. injection Hr as ->. by rewrite Nat.sub_0_r.
  - rewrite (IH n (f c) r0); [|done|].
    + destruct (decide (length (k' :: q) <= n)%nat);
        [rewrite decide_True by (simpl in *; lia)|rewrite decide_False by (simpl in *; lia)];
        done.
    + rewrite <- Hr. by apply resolve_Children.
Qed.

Lemma mapBelow_fields n r :
  Pages (mapBelow n f r) = Pages r
  /\ ListPage (mapBelow n f r) = ListPage r
  /\ GoMap.keys (Children (mapBelow n f r)) = GoMap.keys (Children r).
Proof.
  destruct n; [done|]. simpl. split; [done|]. split; [done|].
  unfold GoMap.keys. rewrite map_map. done.
Qed.



(** X5: a walk whose callback edits the route it is handed, and leaves
    the children of the route alone, returns with every route of at most
    [depth] levels below the root edited, and with the root and the
    routes further down as they were; no route is added or lost. *)
Theorem WalkRoutes_edits_the_routes_within_depth (s : Site) (depth : Z) (fuel : nat) (st : St) :
  -1 <= depth < 2 ^ 63 ->
  (height (root s) < fuel)%nat ->
  exists s' st',
    WalkRoutes edit fuel s depth st = Some (s', st')
    /\ Pages (root s') = Pages (root s)
    /\ ListPage (root s') = ListPage (root s)
    /\ GoMap.keys (Children (root s')) = GoMap.keys (Children (root s))
    /\ forall q r, q <> [] -> resolve q (root s) = Some r ->
         exists r',
           resolve q (root s') = Some r'
           /\ GoMap.keys (Children r') = GoMap.keys (Children r)
           /\ if decide (depth = -1 \/ Z.of_nat (length q) <= depth)
              then Pages r' = Pages (f r) /\ ListPage r' = ListPage (f r)
              else r' = r.
Proof.
  intros Hdepth Hfuel.
  set (n := if depth =? -1 then height (root s) else Z.to_nat depth).
  assert (Hlevels : levels depth 0 n (root s)).
  { subst n. destruct (Z.eqb_spec depth (-1)) as [->|Hd]; [left; split; [done|lia]|].
    right. left. lia. }
  unfold WalkRoutes. rewrite (walkRoute_edit fuel (root s) depth 0 n st Hfuel Hlevels).
  eexists _, _. split; [reflexivity|]. simpl root.
  destruct (mapBelow_fields n (root s)) as (H1 & H2 & H3).
  split_and!; [done..|].
  intros q r Hq Hr. rewrite (resolve_mapBelow q n (root s) r Hq Hr).
  eexists. split; [reflexivity|].
  pose proof (resolve_height q (root s) r Hr) as Hh.
  destruct (decide (length q <= n)%nat) as [Hle|Hgt].
  - destruct (mapBelow_fields (n - length q) (f r)) as (H4 & H5 & H6).
    split; [by rewrite H6, f_Children|].
    rewrite decide_True; [done|]. subst n.
    destruct (Z.eqb_spec depth (-1)); [by left|right; lia].
  - split; [done|]. rewrite decide_False; [done|]. subst n.
    destruct (Z.eqb_spec depth (-1)); [lia|]. intros [?|?]; [done|lia].
Qed.


End WalkEdit.

(** A callback that empties the pages of a route and counts the routes. *)
Definition clearPages (r : Route) : Route :=
  {| Pages := []; ListPage := ListPage r; Children := Children r |}.

Lemma WalkRoutes_edits_the_routes_within_depth_witness :
  exists s' st',
    WalkRoutes (edit clearPages (fun _ n => S n)) 4 site3 1 0%nat = Some (s', st')
    /\ Pages (root s') = Pages (root site3)
    /\ ListPage (root s') = ListPage (root site3)
    /\ GoMap.keys (Children (root s')) = GoMap.keys (Children (root site3))
    /\ forall q r, q <> [] -> resolve q (root site3) = Some r ->
         exists r',
           resolve q (root s') = Some r'
           /\ GoMap.keys (Children r') = GoMap.keys (Children r)
           /\ if decide (1 = -1 \/ Z.of_nat (length q) <= 1)
              then Pages r' = Pages (clearPages r) /\ ListPage r' = ListPage (clearPages r)
              else r' = r.
Proof.
  apply (WalkRoutes_edits_the_routes_within_depth clearPages (fun _ n => S n)
           (fun r => eq_refl) site3 1 4 0%nat).
  - lia.
  - vm_compute. lia.
Defined.


End SiteTreeMore.

(** * Further properties of the builder *)

Module BuilderMore.
Import model GoStrings Builder BuilderFacts.

(** *** [buildPage] and the content root *)

Lemma length_append (a b : string) :
  String.length (a +:+ b) = (String.length a + String.length b)%nat.
Proof. induction a as [|c a IH]; simpl; [done|]. by rewrite IH. Qed.

Lemma str_take_append (a b : string) : str_take (String.length a) (a +:+ b) = a.
Proof. induction a as [|c a IH]; simpl; [by destruct b|]. by rewrite IH. Qed.

Lemma str_drop_append (a b : string) : str_drop (String.length a) (a +:+ b) = b.
Proof. induction a as [|c a IH]; simpl; [by destruct b|]. exact IH. Qed.

Lemma slice_to_append (a b : string) : slice_to (a +:+ b) (len a) = Ok a.
Proof.
  unfold slice_to, len. rewrite length_append.
  assert ((0 <=? Z.of_nat (String.length a))
          && (Z.of_nat (String.length a) <=? Z.of_nat (String.length a + String.length b)) = true)
    as -> by (apply andb_true_iff; split; apply Z.leb_le; lia).
  by rewrite Nat2Z.id, str_take_append.
Qed.

Lemma slice_from_append (a b : string) : slice_from (a +:+ b) (len a) = Ok b.
Proof.
  unfold slice_from, len. rewrite length_append.
  assert ((0 <=? Z.of_nat (String.length a))
          && (Z.of_nat (String.length a) <=? Z.of_nat (String.length a + String.length b)) = true)
    as -> by (apply andb_true_iff; split; apply Z.leb_le; lia).
  by rewrite Nat2Z.id, str_drop_append.
Qed.

Lemma slice_to_short (s : string) (hi : Z) : len s < hi -> slice_to s hi = Panic.
Proof.
  intros H. unfold slice_to.
  assert ((hi <=? len s) = false) as -> by (apply Z.leb_gt; lia). by rewrite andb_false_r.
Qed.

Lemma slice_from_short (s : string) (lo : Z) : len s < lo -> slice_from s lo = Panic.
Proof.
  intros H. unfold slice_from.
  assert ((lo <=? len s) = false) as -> by (apply Z.leb_gt; lia). by rewrite andb_false_r.
Qed.

Section BuildPageMore.
Variable error : Type.
Variables BuildPath ContentDir : string.
Variable ParseArticle : list Byte.byte -> Article + error.
Variable registerPage : ArticlePage -> Site -> Site.
Variable registerIndexPage : model.IndexPage -> Site -> Site.

(** The content root as [buildPage] takes it: the content directory alone
    where the build path is [.]. *)
Definition contentRoot : string :=
  if String.eqb BuildPath "." then ContentDir else BuildPath +:+ "/" +:+ ContentDir.

(** X7: for a file under the content root, [buildPage] takes the route
    from the path of the file within the content root: the route is the
    directory of that path. The identifier of the article is the base
    name of the file without its extension, and a file named [index] is
    registered as the index page of the route, any other as a page. *)
Theorem buildPage_route_within_the_content_root (source : list Byte.byte) (rest : string)
    (mode : registerMode) (b : Build) (parsed : Article) :
  ParseArticle source = inl parsed ->
  let file := contentRoot +:+ rest in
  let route := GoFilepath.Dir rest in
  let id := TrimSuffix (GoFilepath.Base file) (GoFilepath.Ext file) in
  let pg := {| ap_Page := {| Path := route |}; ap_Article := length (store b) |} in
  buildPage BuildPath ContentDir ParseArticle registerPage registerIndexPage source file mode b
  = Ok (Some pg, None,
        {| site := if String.eqb id "index"
                   then registerIndexPage {| ip_Page := {| Path := route |};
                                             ip_Article := length (store b);
                                             ip_ArticlePages := [] |} (site b)
                   else registerPage pg (site b);
           store := store b ++ [withID id parsed] |}).
Proof.
  intros Hparsed file route id pg. unfold buildPage. rewrite Hparsed.
  subst file. unfold contentRoot in *.
  destruct (String.eqb BuildPath ".") eqn:Edot.
  - rewrite slice_to_append. simpl. rewrite String.eqb_refl.
    rewrite slice_from_append. done.
  - simpl. rewrite slice_from_append. done.
Qed.

(** X8: a file path that is shorter than the content root makes
    [buildPage] panic, the bound of a slice being out of range; but the
    source is parsed first, and an error of the parser is returned
    whatever the file path is. *)
Theorem buildPage_short_file_path (source : list Byte.byte) (file : string)
    (mode : registerMode) (b : Build) :
  len file < len contentRoot ->
  match ParseArticle source with
  | inl _ =>
      buildPage BuildPath ContentDir ParseArticle registerPage registerIndexPage source file mode b
      = Panic
  | inr err =>
      buildPage BuildPath ContentDir ParseArticle registerPage registerIndexPage source file mode b
      = Ok (None, Some err, b)
  end.
Proof.
  intros Hshort. unfold buildPage, contentRoot in *.
  destruct (ParseArticle source) as [parsed|err]; [|done].
  destruct (String.eqb BuildPath ".").
  - by rewrite slice_to_short.
  - simpl. by rewrite slice_from_short.
Qed.

End BuildPageMore.

Lemma buildPage_route_within_the_content_root_witness :
  buildPage "." "content" parseAny Builder.registerPage Builder.registerIndexPage
    [] (contentRoot "." "content" +:+ "/blog/category-1/post.md") DirectRegister emptyBuild
  = Ok (Some (page "/blog/category-1" 0), None,
        mkState [("/blog/category-1", route [page "/blog/category-1" 0])]
                [article "post" 20230101 false []]).
Proof.
  apply (buildPage_route_within_the_content_root string "." "content" parseAny
           Builder.registerPage Builder.registerIndexPage [] "/blog/category-1/post.md"
           DirectRegister emptyBuild (article "" 20230101 false [])).
  reflexivity.
Defined.

Lemma buildPage_short_file_path_witness :
  buildPage "my-site" "content" parseAny Builder.registerPage Builder.registerIndexPage
    [] "my-site/a.md" DirectRegister emptyBuild
  = Panic.
Proof.
  apply (buildPage_short_file_path string "my-site" "content" parseAny
           Builder.registerPage Builder.registerIndexPage [] "my-site/a.md"
           DirectRegister emptyBuild).
  vm_compute. reflexivity.
Defined.

(** *** Walks whose callback may panic *)

(** The route after a callback that returns, as far as it has one. *)
Definition orSame (f : string -> RouteInfo -> option RouteInfo) (r : string) (ri : RouteInfo)
    : RouteInfo :=
  match f r ri with
  | Some ri' => ri'
  | None => ri
  end.

Definition returns (f : string -> RouteInfo -> option RouteInfo) (kv : string * RouteInfo)
    : bool :=
  match f (fst kv) (snd kv) with
  | Some _ => true
  | None => false
  end.

Lemma walkLoop_partial walkFn f (R : list (string * RouteInfo)) σ :
  (forall seen r ri todo, R = seen ++ (r, ri) :: todo ->
     walkFn r (length seen) (mkState (mapRoutes (orSame f) seen ++ (r, ri) :: todo) σ)
     = match f r ri with
       | Some ri' => Ok (mkState (mapRoutes (orSame f) seen ++ (r, ri') :: todo) σ)
       | None => Panic
       end) ->
  forall todo seen, R = seen ++ todo ->
    walkLoop walkFn (imap (fun i kv => (fst kv, length seen + i)%nat) todo)
      (mkState (mapRoutes (orSame f) seen ++ todo) σ)
    = if forallb (returns f) todo then Ok (mkState (mapRoutes (orSame f) R) σ) else Panic.
Proof.
  intros Hfn. induction todo as [|[r ri] todo IH]; intros seen HR.
  { simpl. rewrite !app_nil_r in *. by subst. }
  rewrite imap_cons. simpl walkLoop. rewrite Nat.add_0_r.
  rewrite (Hfn seen r ri todo HR). simpl forallb. unfold returns at 1. simpl.
  destruct (f r ri) as [ri'|] eqn:Ef; [|done]. simpl.
  specialize (IH (seen ++ [(r, ri)])).
  replace (mapRoutes (orSame f) (seen ++ [(r, ri)]) ++ todo)
    with (mapRoutes (orSame f) seen ++ (r, ri') :: todo) in IH
    by (unfold mapRoutes, orSame; rewrite map_app, <- app_assoc; simpl; by rewrite Ef).
  rewrite <- IH by (by rewrite <- app_assoc).
  f_equal. apply imap_ext. intros i kv _. simpl. rewrite length_app. simpl.
  f_equal. lia.
Qed.

(** A walk whose callback changes the route it is handed or panics,
    returns if the callback returns at every route. *)
Lemma WalkRoutes_partial walkFn f (R : list (string * RouteInfo)) σ :
  (forall seen r ri todo, R = seen ++ (r, ri) :: todo ->
     walkFn r (length seen) (mkState (mapRoutes (orSame f) seen ++ (r, ri) :: todo) σ)
     = match f r ri with
       | Some ri' => Ok (mkState (mapRoutes (orSame f) seen ++ (r, ri') :: todo) σ)
       | None => Panic
       end) ->
  WalkRoutes walkFn (mkState R σ)
  = if forallb (returns f) R then Ok (mkState (mapRoutes (orSame f) R) σ) else Panic.
Proof.
  intros Hfn. unfold WalkRoutes. simpl.
  apply (walkLoop_partial walkFn f R σ Hfn R []). done.
Qed.

(** *** [buildListPages] and pages without an article *)

Section ListPagesMore.
Context {sorter : Sorter}.

Lemma fillArticlePages_unreadable σ pages : forall n out,
  forallb (readable σ) pages = false -> fillArticlePages σ n pages out = Panic.
Proof.
  induction pages as [|p pages IH]; intros n out Hread; [done|].
  simpl in *. unfold readable in Hread at 1. unfold deref.
  destruct (σ !! ap_Article p) as [a|]; [|done]. simpl in *.
  destruct (Hide a); by apply IH.
Qed.

(** The route after the callback of [buildListPages], where it returns. *)
Definition listPageOf (σ : list Article) (sortPages : bool) (r : string) (ri : RouteInfo)
    : option RouteInfo :=
  match IndexPage ri with
  | Some _ => Some ri
  | None => if forallb (readable σ) (Pages ri)
            then Some (withListPage σ sortPages r ri) else None
  end.

Lemma buildListPagesFn_result sortPages pre r ri post σ n :
  n = length pre ->
  buildListPagesFn sortPages r n (mkState (pre ++ (r, ri) :: post) σ)
  = match listPageOf σ sortPages r ri with
    | Some ri' => Ok (mkState (pre ++ (r, ri') :: post) σ)
    | None => Panic
    end.
Proof.
  intros Hn. unfold listPageOf.
  destruct (IndexPage ri) as [ip|] eqn:Eidx.
  { unfold buildListPagesFn. rewrite (getRoute_middle pre r ri post σ n Hn). simpl.
    by rewrite Eidx. }
  destruct (forallb (readable σ) (Pages ri)) eqn:Eread.
  { by apply buildListPagesFn_route. }
  unfold buildListPagesFn. rewrite (getRoute_middle pre r ri post σ n Hn). simpl.
  rewrite Eidx. destruct sortPages.
  - unfold sortPagesByDate. rewrite Eread, orb_false_r.
    destruct (length (Pages ri) <? 2)%nat; [|done]. simpl.
    rewrite fillArticlePages_unreadable; [done|].
    destruct (forallb (readable σ) (sort_Slice (dateAfter σ) (Pages ri))) eqn:E; [|done].
    apply (readable_perm σ _ _ (sort_Slice_perm _ _)) in E. congruence.
  - simpl. by rewrite fillArticlePages_unreadable.
Qed.

Lemma orSame_listPageOf σ sortPages r ri :
  orSame (listPageOf σ sortPages) r ri
  = if returns (listPageOf σ sortPages) (r, ri) then withListPage σ sortPages r ri else ri.
Proof.
  unfold orSame, returns, listPageOf, withListPage. simpl.
  destruct (IndexPage ri); [done|]. by destruct (forallb (readable σ) (Pages ri)).
Qed.

Lemma buildListPages_result sortPages (b : Build) :
  buildListPages sortPages b
  = if forallb (returns (listPageOf (store b) sortPages)) (routes (site b))
    then Ok (mkState (mapRoutes (withListPage (store b) sortPages) (routes (site b))) (store b))
    else Panic.
Proof.
  unfold buildListPages. rewrite <- (mkState_eta b) at 1.
  rewrite (WalkRoutes_partial _ (listPageOf (store b) sortPages)).
  - destruct (forallb (returns (listPageOf (store b) sortPages)) (routes (site b))) eqn:E; [|done].
    f_equal. f_equal. unfold mapRoutes. apply map_ext_in. intros [r ri] Hin. simpl.
    rewrite orSame_listPageOf. rewrite forallb_forall in E. by rewrite (E _ Hin).
  - intros seen r ri todo HR. apply buildListPagesFn_result.
    unfold mapRoutes. by rewrite length_map.
Qed.

(** X9: [buildListPages] returns if every page of every route without an
    index page has its article, and panics if one has none; the pages of
    a route with an index page are not looked at. When it returns, the
    store is as it was, and so is every route that has an index page:
    its list page stays what it was. *)
Theorem buildListPages_returns_iff_pages_have_articles (sortPages : bool) (b : Build) :
  let haveArticles :=
    forall r ri p, In (r, ri) (routes (site b)) -> IndexPage ri = None ->
                   In p (Pages ri) -> is_Some (store b !! ap_Article p) in
  ((exists b', buildListPages sortPages b = Ok b') <-> haveArticles)
  /\ (buildListPages sortPages b = Panic <-> ~ haveArticles)
  /\ (forall b', buildListPages sortPages b = Ok b' ->
        store b' = store b
        /\ length (routes (site b')) = length (routes (site b))
        /\ forall i r ri, routes (site b) !! i = Some (r, ri) -> is_Some (IndexPage ri) ->
                          routes (site b') !! i = Some (r, ri)).
Proof.
  intros haveArticles. rewrite buildListPages_result.
  assert (Hiff : forallb (returns (listPageOf (store b) sortPages)) (routes (site b)) = true
                 <-> haveArticles).
  { rewrite forallb_forall. subst haveArticles. split.
    - intros H r ri p Hr Hidx Hp. specialize (H (r, ri) Hr).
      unfold returns, listPageOf in H. simpl in H. rewrite Hidx in H.
      destruct (forallb (readable (store b)) (Pages ri)) eqn:E; [|done].
      rewrite forallb_forall in E. specialize (E p Hp). unfold readable in E.
      destruct (store b !! ap_Article p); [eauto|done].
    - intros H [r ri] Hr. unfold returns, listPageOf. simpl.
      destruct (IndexPage ri) eqn:Hidx; [done|].
      assert (forallb (readable (store b)) (Pages ri) = true) as ->; [|done].
      apply forallb_forall. intros p Hp. unfold readable.
      by destruct (H r ri p Hr Hidx Hp) as [a ->]. }
  destruct (forallb (returns (listPageOf (store b) sortPages)) (routes (site b))) eqn:E.
  - split_and!.
    + split; [intros _; by apply Hiff|eauto].
    + split; [done|]. intros H. exfalso. apply H. by apply Hiff.
    + intros b' [= <-]. simpl. split; [done|].
      split; [unfold mapRoutes; by rewrite length_map|].
      intros i r ri Hi [ip Hidx]. rewrite (lookup_mapRoutes _ _ _ _ _ Hi).
      unfold withListPage. by rewrite Hidx.
  - split_and!.
    + split; [by intros [? ?]|]. intros H. apply Hiff in H. congruence.
    + split; [|done]. intros _ H. apply Hiff in H. congruence.
    + done.
Qed.

End ListPagesMore.

(** *** [addArticlePagesToIndexPages] and pages without an article *)

Section IndexPagesMore.
Variables (pre post : list (string * RouteInfo)) (r : string) (ri : RouteInfo).
Variable σ : list Article.
Hypothesis Hindex : is_Some (IndexPage ri).

Lemma appendVisible_result pages : forall acc,
  appendVisible (length pre) pages (during pre post r ri σ acc)
  = if forallb (readable σ) pages
    then Ok (during pre post r ri σ (acc ++ visibleEntries σ pages)) else Panic.
Proof.
  induction pages as [|p pages IH]; intros acc.
  { simpl. unfold visibleEntries. simpl. by rewrite app_nil_r. }
  destruct (forallb (readable σ) (p :: pages)) eqn:Eread.
  { by apply appendVisible_during. }
  simpl in *. unfold deref. change (store (during pre post r ri σ acc)) with σ.
  unfold readable in Eread at 1.
  destruct (σ !! ap_Article p) as [a|]; [|done]. simpl in *.
  destruct (Hide a).
  - by rewrite IH, Eread.
  - rewrite (appendToIndexPage_during pre post r ri σ Hindex). simpl.
    by rewrite IH, Eread.
Qed.

Lemma inner_walkLoop_result (todo : list (string * nat)) : forall acc,
  Forall (fun kj => is_Some ((pre ++ (r, ri) :: post) !! snd kj)) todo ->
  walkLoop (fun r2 i2 b => ri2 ← getRoute i2 b; appendVisible (length pre) (Pages ri2) b)
    todo (during pre post r ri σ acc)
  = if forallb (readable σ)
         (flat_map (fun kj => pagesOf (pre ++ (r, ri) :: post) (snd kj)) todo)
    then Ok (during pre post r ri σ
               (acc ++ visibleEntries σ
                  (flat_map (fun kj => pagesOf (pre ++ (r, ri) :: post) (snd kj)) todo)))
    else Panic.
Proof.
  induction todo as [|[k j] todo IH]; intros acc Hall.
  { simpl. unfold visibleEntries. simpl. by rewrite app_nil_r. }
  apply Forall_cons in Hall as [Hj Hall]. simpl in Hj.
  simpl. destruct (getRoute_during pre post r ri σ acc j Hj) as (rj & -> & Hpages). simpl.
  rewrite Hpages, appendVisible_result, forallb_app.
  destruct (forallb (readable σ) (pagesOf (pre ++ (r, ri) :: post) j)); [|done]. simpl.
  rewrite (IH _ Hall), visibleEntries_app. by rewrite <- app_assoc.
Qed.

End IndexPagesMore.

(** The route after the callback of [addArticlePagesToIndexPages], where
    it returns: [entries] are the visible pages of the site, and
    [readableAll] says whether every page of the site has its article. *)
Definition aggregateOf (entries : list (option ArticlePage)) (readableAll : bool)
    (r : string) (ri : RouteInfo) : option RouteInfo :=
  match IndexPage ri with
  | None => Some ri
  | Some _ => if readableAll then Some (appendAgg entries ri) else None
  end.

Lemma addArticlePagesFn_result pre r ri post σ n :
  n = length pre ->
  addArticlePagesFn r n (mkState (pre ++ (r, ri) :: post) σ)
  = match aggregateOf (visibleEntries σ (allPages (pre ++ (r, ri) :: post)))
            (forallb (readable σ) (allPages (pre ++ (r, ri) :: post))) r ri with
    | Some ri' => Ok (mkState (pre ++ (r, ri') :: post) σ)
    | None => Panic
    end.
Proof.
  intros ->. unfold addArticlePagesFn, aggregateOf.
  rewrite (getRoute_middle pre r ri post σ (length pre) eq_refl). simpl.
  destruct (IndexPage ri) as [ip|] eqn:Eidx; [|done].
  unfold WalkRoutes. simpl.
  pose proof (inner_walkLoop_result pre post r ri σ (ltac:(rewrite Eidx; eauto))
                (imap (fun j kv => (fst kv, j)) (pre ++ (r, ri) :: post)) []
                (Forall_indices _)) as Hwalk.
  pose proof (flat_map_indices (pre ++ (r, ri) :: post) (pre ++ (r, ri) :: post) [] eq_refl) as Hflat.
  simpl in Hflat. rewrite Hflat in Hwalk.
  unfold during in Hwalk. rewrite appendAgg_nil in Hwalk. simpl in Hwalk.
  rewrite Hwalk. by destruct (forallb (readable σ) (allPages (pre ++ (r, ri) :: post))).
Qed.

Lemma Pages_orSame_aggregateOf entries ok r ri :
  Pages (orSame (aggregateOf entries ok) r ri) = Pages ri.
Proof.
  unfold orSame, aggregateOf. destruct (IndexPage ri); [|done]. by destruct ok.
Qed.

Lemma forallb_readable_allPages σ R :
  forallb (readable σ) (allPages R)
  = forallb (fun kv => forallb (readable σ) (Pages (snd kv))) R.
Proof.
  induction R as [|kv R IH]; [done|]. unfold allPages in *. simpl.
  by rewrite forallb_app, IH.
Qed.

Lemma addArticlePagesToIndexPages_result (b : Build) :
  addArticlePagesToIndexPages b
  = if forallb (returns (aggregateOf (visibleEntries (store b) (allPages (routes (site b))))
                           (pagesReadable b))) (routes (site b))
    then Ok (mkState (mapRoutes (fun _ ri => appendAgg (visibleEntries (store b)
                                                          (allPages (routes (site b)))) ri)
                        (routes (site b))) (store b))
    else Panic.
Proof.
  unfold addArticlePagesToIndexPages. rewrite <- (mkState_eta b) at 1.
  set (entries := visibleEntries (store b) (allPages (routes (site b)))).
  rewrite (WalkRoutes_partial _ (aggregateOf entries (pagesReadable b))).
  - destruct (forallb (returns (aggregateOf entries (pagesReadable b))) (routes (site b)))
      eqn:E; [|done].
    f_equal. f_equal. unfold mapRoutes. apply map_ext_in. intros [r ri] Hin. simpl.
    rewrite forallb_forall in E. specialize (E _ Hin).
    unfold returns, orSame, aggregateOf in *. simpl in *.
    destruct (IndexPage ri) eqn:Eidx; [|by rewrite appendAgg_no_index].
    by destruct (pagesReadable b).
  - intros seen r ri todo HR.
    assert (Hall : allPages (mapRoutes (orSame (aggregateOf entries (pagesReadable b))) seen
                             ++ (r, ri) :: todo)
                   = allPages (routes (site b))).
    { rewrite HR, !allPages_app. f_equal. apply allPages_mapRoutes.
      intros. apply Pages_orSame_aggregateOf. }
    rewrite addArticlePagesFn_result by (unfold mapRoutes; by rewrite length_map).
    rewrite Hall. unfold pagesReadable. by rewrite forallb_readable_allPages.
Qed.

(** X10: [addArticlePagesToIndexPages] returns if no route has an index
    page, or if every page of every route has its article; in any other
    case it panics. Without an index page it reads no article and leaves
    the builder as it is. *)
Theorem addArticlePagesToIndexPages_returns_iff (b : Build) :
  let noIndexPage := forall r ri, In (r, ri) (routes (site b)) -> IndexPage ri = None in
  ((exists b', addArticlePagesToIndexPages b = Ok b') <-> noIndexPage \/ pagesReadable b = true)
  /\ (addArticlePagesToIndexPages b = Panic <-> ~ (noIndexPage \/ pagesReadable b = true))
  /\ (noIndexPage -> addArticlePagesToIndexPages b = Ok b).
Proof.
  intros noIndexPage. rewrite addArticlePagesToIndexPages_result.
  set (entries := visibleEntries (store b) (allPages (routes (site b)))).
  assert (Hiff : forallb (returns (aggregateOf entries (pagesReadable b))) (routes (site b)) = true
                 <-> noIndexPage \/ pagesReadable b = true).
  { rewrite forallb_forall. subst noIndexPage. split.
    - intros H. destruct (pagesReadable b) eqn:E; [by right|left].
      intros r ri Hr. specialize (H (r, ri) Hr). unfold returns, aggregateOf in H.
      simpl in H. by destruct (IndexPage ri).
    - intros [H|H] [r ri] Hr; unfold returns, aggregateOf; simpl.
      + by rewrite (H r ri Hr).
      + rewrite H. by destruct (IndexPage ri). }
  destruct (forallb (returns (aggregateOf entries (pagesReadable b))) (routes (site b))) eqn:E.
  - split_and!.
    + split; [intros _; by apply Hiff|eauto].
    + split; [done|]. intros H. exfalso. apply H. by apply Hiff.
    + intros Hno. f_equal.
      assert (mapRoutes (fun _ ri => appendAgg entries ri) (routes (site b))
              = routes (site b)) as ->; [|apply mkState_eta].
      unfold mapRoutes. rewrite <- (map_id (routes (site b))) at 2.
      apply map_ext_in. intros [r ri] Hin. simpl.
      by rewrite appendAgg_no_index by (by apply (Hno r)).
  - split_and!.
    + split; [by intros [? ?]|]. intros H. apply Hiff in H. congruence.
    + split; [|done]. intros _ H. apply Hiff in H. congruence.
    + intros Hno. assert (false = true) as Habs; [|done]. apply Hiff. by left.
Qed.

Lemma pagesReadable_mapRoutes f R σ :
  (forall r ri, Pages (f r ri) = Pages ri) ->
  pagesReadable (mkState (mapRoutes f R) σ) = pagesReadable (mkState R σ).
Proof.
  intros Hf. unfold pagesReadable. simpl.
  induction R as [|[r ri] R IH]; [done|]. simpl. by rewrite Hf, IH.
Qed.

(** X11: a second run of [addArticlePagesToIndexPages] appends the
    visible pages of the site once more: after two runs an index page
    holds them twice, after the pages it held. *)
Theorem addArticlePagesToIndexPages_twice (b : Build) :
  pagesReadable b = true ->
  let entries :=
    Some <$> filter (fun p => hidden (store b) p = false)
               (flat_map (fun kv => Pages (snd kv)) (routes (site b))) in
  exists b1 b2,
    addArticlePagesToIndexPages b = Ok b1
    /\ addArticlePagesToIndexPages b1 = Ok b2
    /\ forall i r ri ip,
         routes (site b) !! i = Some (r, ri) -> IndexPage ri = Some ip ->
         exists ri2 ip2,
           routes (site b2) !! i = Some (r, ri2)
           /\ IndexPage ri2 = Some ip2
           /\ ip_ArticlePages ip2 = ip_ArticlePages ip ++ entries ++ entries.
Proof.
  intros Hread entries.
  set (agg := fun (_ : string) ri => appendAgg (visibleEntries (store b)
                                                  (allPages (routes (site b)))) ri).
  set (b1 := mkState (mapRoutes agg (routes (site b))) (store b)).
  assert (H1 : addArticlePagesToIndexPages b = Ok b1)
    by (by apply addArticlePagesToIndexPages_routes).
  assert (Hread1 : pagesReadable b1 = true).
  { unfold b1. rewrite pagesReadable_mapRoutes by done. by rewrite mkState_eta. }
  pose proof (addArticlePagesToIndexPages_routes b1 Hread1) as H2.
  exists b1. eexists. split; [done|]. split; [exact H2|].
  intros i r ri ip Hi Hidx. simpl.
  rewrite (lookup_mapRoutes _ _ _ _ _ (lookup_mapRoutes agg _ _ _ _ Hi)).
  rewrite (allPages_mapRoutes agg) by done.
  eexists _, _. split; [reflexivity|]. unfold agg, appendAgg. simpl. rewrite Hidx. simpl.
  split; [reflexivity|]. simpl. by rewrite <- app_assoc.
Qed.

Lemma addArticlePagesToIndexPages_twice_witness :
  let entries :=
    Some <$> filter (fun p => hidden (store twoIndexRoutes) p = false)
               (flat_map (fun kv => Pages (snd kv)) (routes (site twoIndexRoutes))) in
  exists b1 b2,
    addArticlePagesToIndexPages twoIndexRoutes = Ok b1
    /\ addArticlePagesToIndexPages b1 = Ok b2
    /\ forall i r ri ip,
         routes (site twoIndexRoutes) !! i = Some (r, ri) -> IndexPage ri = Some ip ->
         exists ri2 ip2,
           routes (site b2) !! i = Some (r, ri2)
           /\ IndexPage ri2 = Some ip2
           /\ ip_ArticlePages ip2 = ip_ArticlePages ip ++ entries ++ entries.
Proof.
  apply (addArticlePagesToIndexPages_twice twoIndexRoutes). reflexivity.
Defined.

(** *** The two passes over list pages and index pages *)

Section PassesCommute.
Context {sorter : Sorter}.



End PassesCommute.


(** With sorting the order of the passes shows: the index page has the
    pages in the order of the route at the time of the pass. *)
Definition unsortedWithIndex : Build :=
  mkState [("a", indexRoute "a" 2 []); ("blog", route [page "blog" 0; page "blog" 1])]
          [article "january" 20230101 false []; article "march" 20230301 false [];
           article "index" 20230101 false []].

Example passes_with_sorting :
  indexPageEntries 0 (buildListPages true unsortedWithIndex ≫= addArticlePagesToIndexPages)
  = Some [Some (page "blog" 1); Some (page "blog" 0)]
  /\ indexPageEntries 0 (addArticlePagesToIndexPages unsortedWithIndex ≫= buildListPages true)
     = Some [Some (page "blog" 0); Some (page "blog" 1)].
Proof. vm_compute. split; reflexivity. Qed.

(** *** [buildRelated] and the articles *)

(** An article after the pass: as it was, with related pages after those
    it had. *)
Definition grown (a a' : Article) : Prop :=
  ID a' = ID a /\ Date a' = Date a /\ Hide a' = Hide a /\ Related a' = Related a
  /\ RelatedPages a `prefix_of` RelatedPages a'.

#[local] Instance grown_refl : Reflexive grown.
Proof. intros a. by repeat split. Qed.

#[local] Instance grown_trans : Transitive grown.
Proof.
  intros a1 a2 a3 (H1 & H2 & H3 & H4 & H5) (K1 & K2 & K3 & K4 & K5).
  repeat split; [congruence..|]. by etransitivity.
Qed.

Lemma LastIndex_from_append (s t : string) : forall i last,
  LastIndex_from (s +:+ t) i last = LastIndex_from t (i + len s) (LastIndex_from s i last).
Proof.
  induction s as [|c s IH]; intros i last.
  { simpl. unfold len. simpl. by rewrite Z.add_0_r. }
  simpl. rewrite IH, len_String. f_equal. lia.
Qed.

Lemma contains_slash_append (s t : string) :
  contains_slash (s +:+ t) = contains_slash s || contains_slash t.
Proof. induction s as [|c s IH]; simpl; [done|]. by rewrite IH, orb_assoc. Qed.

Lemma LastIndex_link (path id : string) :
  contains_slash id = false -> LastIndex (path +:+ "/" +:+ id) = len path.
Proof.
  intros Hid. unfold LastIndex. rewrite LastIndex_from_append. simpl.
  change ("" +:+ id) with id.
  destruct (LastIndex_from_spec id (0 + len path + 1) (0 + len path)) as [[_ ->]|[H _]];
    [lia|congruence].
Qed.

Lemma str_drop_link (path id : string) :
  str_drop (S (String.length path)) (path +:+ "/" +:+ id) = id.
Proof. induction path as [|c path IH]; simpl; [by destruct id|]. exact IH. Qed.

Section RelatedMore.
Variable error : Type.
Variable resolve : Build -> string -> string -> option ArticlePage * option error.

(** X13: a link is cut at its last slash. For the link made of a path, a
    slash and an identifier without a slash, the path and the identifier
    are resolved, and the page that comes back is appended to the related
    pages of the article; the path may have slashes of its own. *)
Theorem relateLink_cuts_at_the_last_slash (p : ArticlePage) (path id : string)
    (b : Build) (a : Article) :
  store b !! ap_Article p = Some a ->
  contains_slash id = false ->
  relateLink resolve p (path +:+ "/" +:+ id) b
  = Ok (setArticle (ap_Article p) (appendRelated (fst (resolve b path id)) a) b).
Proof.
  intros Ha Hid.
  rewrite (relateLink_slash error resolve p (path +:+ "/" +:+ id) b a); [|
    rewrite !contains_slash_append; simpl; by rewrite orb_true_r|done].
  unfold linkPath, linkID. rewrite (LastIndex_link path id Hid).
  unfold len. rewrite Nat2Z.id, str_take_append.
  replace (Z.to_nat (Z.of_nat (String.length path) + 1)) with (S (String.length path)) by lia.
  by rewrite str_drop_link.
Qed.

Lemma relateLink_inv p link b b' :
  relateLink resolve p link b = Ok b' ->
  exists a entry, store b !! ap_Article p = Some a
                  /\ b' = setArticle (ap_Article p) (appendRelated entry a) b.
Proof.
  unfold relateLink.
  destruct (slice_to link (LastIndex link)) as [path|]; simpl; [|done].
  destruct (slice_from link (len path + 1)) as [id|]; simpl; [|done].
  destruct (resolve b path id) as [pg e]. unfold deref.
  destruct (store b !! ap_Article p) as [a|]; simpl; [|done].
  intros [= <-]. by exists a, pg.
Qed.

Lemma relateLink_grown p link b b' :
  relateLink resolve p link b = Ok b' ->
  site b' = site b /\ Forall2 grown (store b) (store b').
Proof.
  intros H. apply relateLink_inv in H as (a & entry & Ha & ->). split; [done|].
  simpl. rewrite <- (list_insert_id (store b) (ap_Article p) a Ha) at 1.
  apply Forall2_insert; [reflexivity|].
  repeat split. simpl. by apply prefix_app_r.
Qed.

Lemma relateLinks_grown p links : forall b b',
  relateLinks resolve p links b = Ok b' ->
  site b' = site b /\ Forall2 grown (store b) (store b').
Proof.
  induction links as [|link links IH]; intros b b'; simpl.
  { intros [= <-]. split; [done|reflexivity]. }
  destruct (relateLink resolve p link b) as [b1|] eqn:E1; simpl; [|done].
  intros H. apply relateLink_grown in E1 as [H1 H2]. apply IH in H as [H3 H4].
  split; [congruence|by etransitivity].
Qed.

Lemma relatePages_grown pages : forall b b',
  relatePages resolve pages b = Ok b' ->
  site b' = site b /\ Forall2 grown (store b) (store b').
Proof.
  induction pages as [|p pages IH]; intros b b'; simpl.
  { intros [= <-]. split; [done|reflexivity]. }
  destruct (deref (store b) (ap_Article p)) as [a|]; simpl; [|done].
  destruct (relateLinks resolve p (Related a) b) as [b1|] eqn:E1; simpl; [|done].
  intros H. apply relateLinks_grown in E1 as [H1 H2]. apply IH in H as [H3 H4].
  split; [congruence|by etransitivity].
Qed.

Lemma buildRelated_walkLoop_grown todo : forall b b',
  walkLoop (buildRelatedFn resolve) todo b = Ok b' ->
  site b' = site b /\ Forall2 grown (store b) (store b').
Proof.
  induction todo as [|[k j] todo IH]; intros b b'; simpl.
  { intros [= <-]. split; [done|reflexivity]. }
  destruct (buildRelatedFn resolve k j b) as [b1|] eqn:E1; simpl; [|done].
  intros H. apply IH in H as [H3 H4].
  unfold buildRelatedFn in E1. destruct (getRoute j b) as [rj|]; simpl in E1; [|done].
  apply relatePages_grown in E1 as [H1 H2].
  split; [congruence|by etransitivity].
Qed.

(** X14: [buildRelated] changes nothing but the related pages of the
    articles, and those it only makes longer: when it returns, the routes
    are as they were, the store has the articles it had, each with its
    identifier, date, visibility and links, and with the related pages it
    had before any new one. *)
Theorem buildRelated_only_appends_related_pages (b b' : Build) :
  buildRelated resolve b = Ok b' ->
  site b' = site b /\ Forall2 grown (store b) (store b').
Proof. apply buildRelated_walkLoop_grown. Qed.

End RelatedMore.

Lemma relateLink_cuts_at_the_last_slash_witness :
  relateLink Builder.resolvePath (page "blog" 1) ("docs/blog" +:+ "/" +:+ "post-1") threeLinks
  = Ok (setArticle 1
          (appendRelated (fst (Builder.resolvePath threeLinks "docs/blog" "post-1"))
             (article "post-2" 20230201 false ["blog/post-1"; "blog/missing"; "nowhere/post-1"]))
          threeLinks).
Proof.
  apply (relateLink_cuts_at_the_last_slash string Builder.resolvePath (page "blog" 1)
           "docs/blog" "post-1" threeLinks).
  - reflexivity.
  - reflexivity.
Defined.

Definition threeLinksRelated : Build :=
  match buildRelated Builder.resolvePath threeLinks with
  | Ok b' => b'
  | Panic => threeLinks
  end.

Lemma buildRelated_only_appends_related_pages_witness :
  site threeLinksRelated = site threeLinks
  /\ Forall2 grown (store threeLinks) (store threeLinksRelated).
Proof.
  apply (buildRelated_only_appends_related_pages string Builder.resolvePath
           threeLinks threeLinksRelated).
  reflexivity.
Defined.

End BuilderMore.

(** * The navigation *)

Module NavBuilder.
Import model GoStrings Builder.

(** [model.NavItem] and [model.Nav], and the settings of the site that
    [buildNav] reads; their declarations are not part of the sources at
    hand. *)
Record NavItem : Type := mkNavItem { Label : string; Target : string }.

Record Nav : Type := mkNav { Brand : string; Items : list NavItem }.

Record Settings : Type := mkSettings {
  Title : string;
  NavItems : list NavItem;
  Override : bool }.

Definition appendItem (item : NavItem) (nav : Nav) : Nav :=
  {| Brand := Brand nav; Items := Items nav ++ [item] |}.

Fixpoint walkLoopWith {St : Type} (walkFn : string -> nat -> Build * St -> result (Build * St))
    (todo : list (string * nat)) (bs : Build * St) : result (Build * St) :=
  match todo with
  | [] => Ok bs
  | (r, i) :: todo' => bs' ← walkFn r i bs; walkLoopWith walkFn todo' bs'
  end.

(** Modelled from the spec: [WalkRoutes(walkFn)] as in [Builder.WalkRoutes],
    for a callback that has captured variables of its own, of the type
    [St], besides the builder. *)
Definition WalkRoutesWith {St : Type} (walkFn : string -> nat -> Build * St -> result (Build * St))
    (bs : Build * St) : result (Build * St) :=
  walkLoopWith walkFn (imap (fun i kv => (fst kv, i)) (routes (site (fst bs)))) bs.

Section BuildNav.
(** [strings.Title], which puts the first letter of every word into upper
    case, is a parameter. *)
Variable strings_Title : string -> string.
Variable settings : Settings.

(** The callback of [buildNav]: a route whose path has one segment gets
    an item. *)
Definition buildNavFn (r : string) (i : nat) (bs : Build * Nav) : result (Build * Nav) :=
  let segments := Split r in
  if (length segments =? 1)%nat then
    match segments with
    | seg :: _ => Ok (fst bs, appendItem {| Label := strings_Title seg; Target := seg |} (snd bs))
    | [] => Panic
    end
  else Ok bs.

(** [func (b *builder) buildNav() error]: the result is the navigation
    that it stores in the site model; the error it returns is nil. *)
Definition buildNav (b : Build) : result (Build * Nav) :=
  let nav :=
    fold_left (fun nav i => appendItem {| Label := Label i; Target := Target i |} nav)
              (NavItems settings) {| Brand := Title settings; Items := [] |} in
  if negb (Override settings) then WalkRoutesWith buildNavFn (b, nav) else Ok (b, nav).

End BuildNav.
End NavBuilder.

Module NavFacts.
Import model GoStrings Builder NavBuilder.

Lemma Split_no_slash (r : string) : contains_slash r = false -> Split r = [r].
Proof.
  induction r as [|c r IH]; [done|]. simpl.
  destruct (Ascii.eqb c slash); [done|]. simpl. intros H. by rewrite (IH H).
Qed.

Lemma Split_slash (r : string) : contains_slash r = true -> (2 <= length (Split r))%nat.
Proof.
  induction r as [|c r IH]; [done|]. simpl.
  pose proof (Split_not_nil r) as Hne.
  destruct (Ascii.eqb c slash); simpl.
  - intros _. destruct (Split r); [done|simpl; lia].
  - intros H. specialize (IH H). destruct (Split r); simpl in *; lia.
Qed.

Section BuildNavFacts.
Variable strings_Title : string -> string.
Variable settings : Settings.

Definition topLevelItem (r : string) : NavItem :=
  {| Label := strings_Title r; Target := r |}.

Lemma buildNavFn_result r i b nav :
  buildNavFn strings_Title r i (b, nav)
  = Ok (b, if contains_slash r then nav else appendItem (topLevelItem r) nav).
Proof.
  unfold buildNavFn. destruct (contains_slash r) eqn:E.
  - apply Split_slash in E. destruct (Nat.eqb_spec (length (Split r)) 1); [lia|done].
  - by rewrite (Split_no_slash r E).
Qed.

Lemma buildNav_walkLoop (todo : list (string * nat)) : forall b nav,
  walkLoopWith (buildNavFn strings_Title) todo (b, nav)
  = Ok (b, {| Brand := Brand nav;
              Items := Items nav
                       ++ map topLevelItem
                            (filter (fun r => contains_slash r = false) (map fst todo)) |}).
Proof.
  induction todo as [|[r i] todo IH]; intros b nav.
  { simpl. rewrite app_nil_r. by destruct nav. }
  simpl walkLoopWith. rewrite buildNavFn_result. simpl. rewrite IH.
  rewrite filter_cons. destruct (contains_slash r) eqn:E.
  - rewrite decide_False by done. done.
  - rewrite decide_True by done. simpl. by rewrite <- app_assoc.
Qed.

Lemma fold_appendItem (conv : NavItem -> NavItem) items : forall nav,
  fold_left (fun nav i => appendItem (conv i) nav) items nav
  = {| Brand := Brand nav; Items := Items nav ++ map conv items |}.
Proof.
  induction items as [|i items IH]; intros nav; simpl.
  { rewrite app_nil_r. by destruct nav. }
  rewrite IH. simpl. by rewrite <- app_assoc.
Qed.

Lemma keys_of_indices (R : list (string * RouteInfo)) : forall h : nat -> nat,
  map fst (imap (fun i kv => (fst kv, h i)) R) = map fst R.
Proof.
  induction R as [|kv R IH]; intros h; [done|]. rewrite imap_cons. simpl. f_equal.
  apply (IH (h ∘ S)).
Qed.

(** X15: [buildNav] returns with the builder as it is and with a
    navigation that has the title of the site as its brand and the items
    of the settings first, in their order. Unless the settings override
    the navigation, an item follows for every route whose path has no
    slash, in the order of the walk, with the path as its target; a route
    whose path has a slash gets no item. *)
Theorem buildNav_items (b : Build) :
  buildNav strings_Title settings b
  = Ok (b, {| Brand := Title settings;
              Items := NavItems settings
                       ++ if Override settings then []
                          else map topLevelItem
                                 (filter (fun r => contains_slash r = false)
                                    (map fst (routes (site b)))) |}).
Proof.
  unfold buildNav.
  rewrite (fold_appendItem (fun i => {| Label := Label i; Target := Target i |})). simpl.
  assert (map (fun i => {| Label := Label i; Target := Target i |}) (NavItems settings)
          = NavItems settings) as ->.
  { rewrite <- (map_id (NavItems settings)) at 2. apply map_ext. by intros []. }
  destruct (Override settings); simpl.
  { by rewrite app_nil_r. }
  unfold WalkRoutesWith. simpl. rewrite buildNav_walkLoop. simpl.
  by rewrite (keys_of_indices (routes (site b)) (fun i => i)).
Qed.

End BuildNavFacts.
End NavFacts.

(** * The Atom plugin *)

Module Atom.
Import model.

(** [model.Article] as the plugin reads it: the declaration is not part
    of the sources at hand, and the plugin reads a title and a
    description that the builder never touches. *)
Record Article : Type := mkArticle {
  ID : string;
  Title : string;
  Description : string;
  Date : Z;
  Hide : bool }.

(** [Meta]. *)
Record Meta : Type := mkMeta {
  m_Title : string;
  BaseURL : string;
  m_Description : string;
  Author : string;
  Subtitle : string;
  Copyright : string }.

(** [feeds.Item] and [feeds.Feed], with the fields that the plugin sets;
    a link is its [Href]. *)
Record Item : Type := mkItem {
  it_Title : string;
  it_Link : string;
  it_Description : string;
  it_Id : string;
  it_Created : Z }.

Record Feed : Type := mkFeed {
  f_Title : string;
  f_Link : string;
  f_Description : string;
  f_Author : string;
  f_Created : Z;
  f_Subtitle : string;
  f_Items : list Item;
  f_Copyright : string }.

Record atom : Type := mkAtom { meta : Meta; feed : Feed }.

(** [New]; [now] is what [time.Now()] returns. *)
Definition New (now : Z) (meta : Meta) : atom :=
  {| meta := meta;
     feed := {| f_Title := m_Title meta;
                f_Link := BaseURL meta;
                f_Description := m_Description meta;
                f_Author := Author meta;
                f_Created := now;
                f_Subtitle := Subtitle meta;
                f_Items := [];
                f_Copyright := Copyright meta |} |}.

Definition appendItem (item : Item) (a : atom) : atom :=
  {| meta := meta a;
     feed := {| f_Title := f_Title (feed a);
                f_Link := f_Link (feed a);
                f_Description := f_Description (feed a);
                f_Author := f_Author (feed a);
                f_Created := f_Created (feed a);
                f_Subtitle := f_Subtitle (feed a);
                f_Items := f_Items (feed a) ++ [item];
                f_Copyright := f_Copyright (feed a) |} |}.

(** [ProcessArticlePage]; [σ] holds the articles, and the error that is
    returned is nil. [fmt.Sprintf] with three [%s] puts the three strings
    one after the other. *)
Definition ProcessArticlePage (σ : list Article) (a : atom) (page : ArticlePage)
    : result atom :=
  match σ !! ap_Article page with
  | None => Panic
  | Some article =>
      if Hide article then Ok a
      else
        let absoluteURL := BaseURL (meta a) +:+ Path (ap_Page page) +:+ ID article in
        Ok (appendItem {| it_Title := Title article;
                          it_Link := absoluteURL;
                          it_Description := Description article;
                          it_Id := absoluteURL;
                          it_Created := Date article |} a)
  end.

(** The pages of a list handed to the plugin one after the other. *)
Fixpoint processAll (σ : list Article) (a : atom) (pages : list ArticlePage) : result atom :=
  match pages with
  | [] => Ok a
  | page :: pages' => a' ← ProcessArticlePage σ a page; processAll σ a' pages'
  end.

End Atom.

Module AtomFacts.
Import model Atom.

(** The items that the plugin makes of the pages whose article is there
    and is not hidden. *)
Definition itemsOf (σ : list Article) (base : string) (pages : list ArticlePage) : list Item :=
  omap (fun page =>
          match σ !! ap_Article page with
          | Some article =>
              if Hide article then None
              else Some {| it_Title := Title article;
                           it_Link := base +:+ Path (ap_Page page) +:+ ID article;
                           it_Description := Description article;
                           it_Id := base +:+ Path (ap_Page page) +:+ ID article;
                           it_Created := Date article |}
          | None => None
          end) pages.

Definition hasArticle (σ : list Article) (page : ArticlePage) : bool :=
  match σ !! ap_Article page with
  | Some _ => true
  | None => false
  end.

Definition withItems (items : list Item) (a : atom) : atom :=
  {| meta := meta a;
     feed := {| f_Title := f_Title (feed a);
                f_Link := f_Link (feed a);
                f_Description := f_Description (feed a);
                f_Author := f_Author (feed a);
                f_Created := f_Created (feed a);
                f_Subtitle := f_Subtitle (feed a);
                f_Items := items;
                f_Copyright := f_Copyright (feed a) |} |}.

Lemma withItems_same a : withItems (f_Items (feed a)) a = a.
Proof. by destruct a as [m []]. Qed.

(** X16: the feed after the pages of a list have been handed to the
    plugin has the items it had and then one item for every page whose
    article is not hidden, in the order of the pages; the link and the
    identifier of an item are the base URL, the path of the page and the
    identifier of the article, one after the other. Nothing else of the
    feed changes, and a page without an article makes the plugin panic. *)
Theorem processAll_items (σ : list Article) (pages : list ArticlePage) : forall a : atom,
  processAll σ a pages
  = if forallb (hasArticle σ) pages
    then Ok (withItems (f_Items (feed a) ++ itemsOf σ (BaseURL (meta a)) pages) a)
    else Panic.
Proof.
  induction pages as [|page pages IH]; intros a.
  { simpl. unfold itemsOf. simpl. by rewrite app_nil_r, withItems_same. }
  simpl. unfold ProcessArticlePage, hasArticle at 1, itemsOf.
  change (omap ?f (page :: pages)) with
    (match f page with Some y => y :: omap f pages | None => omap f pages end).
  destruct (σ !! ap_Article page) as [article|]; [|done]. simpl.
  destruct (Hide article); simpl; rewrite IH.
  - done.
  - destruct (forallb (hasArticle σ) pages); [|done].
    unfold withItems, appendItem, itemsOf. simpl. by rewrite <- app_assoc.
Qed.

End AtomFacts.
